(** * tev: process entry point (src/main.cpp)

    A shallow embedding of [tev::mainFunc] and [main]: command line
    handling, the secondary-instance forwarding loop, the primary-instance
    startup loads, the viewer calls and the process exit code; and of
    the Windows entry point, [reconnectIo] and [WinMain].

    The entry point talks to collaborators whose code lives elsewhere
    (args.hxx, Ipc, ThreadPool, SharedQueue, the image loader, nanogui and
    the viewer).  Their answers are gathered in the record [Env]; the
    effects of the entry point on the outside are recorded in [World]. *)

From Stdlib Require Import String Ascii ZArith Bool Arith Lia.
From Stdlib Require Import List Permutation.
Import ListNotations.

Local Open Scope string_scope.
Local Open Scope list_scope.

(** C++ [operator+] on [std::string]; left associative like the original. *)
Infix "+++" := String.append (at level 50, left associativity).

(** [std::endl], as the character it writes. *)
Definition endl : string := String (ascii_of_nat 10) EmptyString.

(** ** Exceptions *)

(** A thrown C++ exception: whether its class is (derived from)
    [std::runtime_error], and its [what()] text. *)
Record Exn : Type := mkExn { exn_runtime : bool; exn_what : string }.

Inductive Outcome (A : Type) : Type :=
| Returned (a : A)
| Threw (e : Exn).
Arguments Returned {A} a.
Arguments Threw {A} e.

(** ** The concurrent queue (include/SharedQueue.h) *)

Module SharedQueue.

(** Modelled from the spec: the class [SharedQueue<T>] of
    include/SharedQueue.h, "a thread-safe FIFO container"; "all mutation
    is through its own synchronized operations", so each operation is one
    atomic step on the contents, oldest item first. *)
Definition t (A : Type) : Type := list A.

(** Modelled from the spec: the queue a [make_shared<SharedQueue<T>>()]
    gives, holding nothing. *)
Definition empty {A : Type} : t A := [].

(** Modelled from the spec: [SharedQueue::push], "push(item) enqueues
    item, never blocks"; "operations cannot fail; capacity is unbounded". *)
Definition push {A : Type} (item : A) (q : t A) : t A := q ++ [item].

(** Modelled from the spec: [SharedQueue::tryPop], "non-blocking, returns
    the oldest unconsumed item or an empty result if none". *)
Definition tryPop {A : Type} (q : t A) : option A * t A :=
  match q with
  | [] => (None, [])
  | item :: rest => (Some item, rest)
  end.

(** Repeated [tryPop] until the queue answers "empty"; [fuel] bounds the
    number of polls. *)
Fixpoint popAll {A : Type} (fuel : nat) (q : t A) : list A * t A :=
  match fuel with
  | O => ([], q)
  | S fuel' =>
      match tryPop q with
      | (Some item, rest) =>
          let (items, q') := popAll fuel' rest in (item :: items, q')
      | (None, rest) => ([], rest)
      end
  end.

(** Modelled from the spec: the setting of "N producer threads each push
    M items concurrently" with "the consumer polling concurrently": every
    producer with the items it still has to push, the queue, and what the
    consumer has polled so far. *)
Record Sys (A : Type) : Type := mkSys {
  producers : list (list A);
  contents : t A;
  consumed : list A
}.
Arguments mkSys {A} _ _ _.
Arguments producers {A} _.
Arguments contents {A} _.
Arguments consumed {A} _.

(** Modelled from the spec: one synchronized operation of one thread;
    any producer that is not finished pushes its next item, or the
    consumer polls. *)
Inductive step {A : Type} : Sys A -> Sys A -> Prop :=
| step_push : forall before item rest after q got,
    step (mkSys (before ++ (item :: rest) :: after) q got)
         (mkSys (before ++ rest :: after) (push item q) got)
| step_poll : forall ps q got,
    step (mkSys ps q got)
         (mkSys ps (snd (tryPop q))
                (got ++ match fst (tryPop q) with Some x => [x] | None => [] end)).

Inductive steps {A : Type} : Sys A -> Sys A -> Prop :=
| steps_refl : forall s, steps s s
| steps_step : forall s1 s2 s3, steps s1 s2 -> step s2 s3 -> steps s1 s3.

(** All pushes have completed. *)
Definition pushesDone {A : Type} (s : Sys A) : Prop :=
  Forall (fun todo => todo = []) (producers s).

Definition start {A : Type} (threads : list (list A)) : Sys A :=
  mkSys threads empty [].

(** A schedule that lets the producers run one after the other. *)
Definition afterAllPushes {A : Type} (threads : list (list A)) : Sys A :=
  mkSys (map (fun _ => []) threads) (concat threads) [].

End SharedQueue.

(** ** The single-worker task pool (include/ThreadPool.h) *)

Module ThreadPool.

(** Modelled from the spec: the pool [ThreadPool::singleWorker()] of
    include/ThreadPool.h, "a pool of size one" that "executes its tasks
    strictly in submission order": the tasks submitted and not yet
    started, oldest first. *)
Definition t (Task : Type) : Type := list Task.

(** Modelled from the spec: [ThreadPool::enqueueTask], "schedules work
    for execution on a worker thread, returns immediately". *)
Definition enqueueTask {Task : Type} (task : Task) (p : t Task) : t Task :=
  p ++ [task].

(** Modelled from the spec: what the single worker takes up next, the
    oldest task submitted and not yet started. *)
Definition nextTask {Task : Type} (p : t Task) : option (Task * t Task) :=
  match p with
  | [] => None
  | task :: rest => Some (task, rest)
  end.

End ThreadPool.

(** ** Command line *)

(** [float], by its IEEE-754 binary32 bit pattern; the values are only
    handed on to the viewer. *)
Definition float : Type := Z.

(** The flags and positionals of the [ArgumentParser] after a successful
    [ParseCLI].  A [ValueFlag<T>] is [Some v] when it was matched ([get]
    gives [v]) and [None] otherwise; the [PositionalList<string>] holds
    the matched tokens in order. *)
Record Args : Type := mkArgs {
  exposureFlag : option float;
  filterFlag : option string;
  maximizeFlag : option bool;
  metricFlag : option string;
  offsetFlag : option float;
  tonemapFlag : option string;
  imageFiles : list string
}.

(** [operator bool] of the positional list: it was matched, i.e. at least
    one positional token was parsed into it. *)
Definition matched (positionals : list string) : bool :=
  match positionals with
  | [] => false
  | _ :: _ => true
  end.

(** What [parser.ParseCLI(argc, argv)] does. *)
Inductive ParseResult : Type :=
| Parsed (a : Args)
| ThrowsHelp
| ThrowsParseError (what : string)
| ThrowsValidationError (what : string)
| ThrowsOther (e : Exn).

(** Metrics and tonemaps, as listed in the help texts of [metricFlag] and
    [tonemapFlag]. *)
Inductive EMetric : Type :=
| Error | AbsoluteError | SquaredError | RelativeAbsoluteError | RelativeSquaredError.

Inductive ETonemap : Type := SRGB | Gamma | FalseColor | PositiveNegative.

(** Calls made on the windowing side and on the pool as a whole. *)
Inductive Call : Type :=
| NanoguiInit
| NewImageViewer
| DrawAll
| SetVisible (visible : bool)
| Maximize
| SetExposure (x : float)
| SetFilter (s : string)
| SetMetric (m : EMetric)
| SetOffset (x : float)
| SetTonemap (t : ETonemap)
| Mainloop (refresh : Z)
| ThreadPoolShutdown.

(** The closure handed to [enqueueTask]: [imageFile] and [channelSelector]
    are captured by value. *)
Record LoadTask : Type := mkLoadTask {
  task_imageFile : string;
  task_channelSelector : string
}.

(** ** Channel selector tokens *)

(** [!imageFile.empty() && imageFile[0] == ':'], and in that case
    [imageFile.substr(1)]. *)
Definition asSelector (imageFile : string) : option string :=
  match imageFile with
  | EmptyString => None
  | String c rest => if Ascii.eqb c ":"%char then Some rest else None
  end.

Definition isSelector (imageFile : string) : bool :=
  match asSelector imageFile with
  | Some _ => true
  | None => false
  end.

(** ** The outside world *)

Record World : Type := mkWorld {
  cout : list string;          (* chunks written to std::cout *)
  cerr : list string;          (* chunks written to std::cerr *)
  ipcSent : list string;       (* payloads handed to sendToPrimaryInstance *)
  pool : ThreadPool.t LoadTask;  (* ThreadPool::singleWorker() *)
  calls : list Call
}.

Definition emptyWorld : World := mkWorld [] [] [] [] [].

(** Effectful code: a state and exception monad over [World]. *)
Definition M (A : Type) : Type := World -> Outcome A * World.

Definition ret {A : Type} (a : A) : M A := fun w => (Returned a, w).

Definition bind {A B : Type} (m : M A) (k : A -> M B) : M B :=
  fun w =>
    match m w with
    | (Returned a, w') => k a w'
    | (Threw e, w') => (Threw e, w')
    end.

Definition throw {A : Type} (e : Exn) : M A := fun w => (Threw e, w).

(** [try { body } catch (runtime_error e) { handler }] *)
Definition tryCatchRuntime {A : Type} (body : M A) (handler : Exn -> M A) : M A :=
  fun w =>
    match body w with
    | (Returned a, w') => (Returned a, w')
    | (Threw e, w') => if exn_runtime e then handler e w' else (Threw e, w')
    end.

Notation "x <- m ;; k" := (bind m (fun x => k))
  (at level 61, m at next level, right associativity).
Notation "m ;; k" := (bind m (fun _ => k))
  (at level 61, right associativity).

Definition lift {A : Type} (o : Outcome A) : M A := fun w => (o, w).

Definition writeCout (s : string) : M unit :=
  fun w => (Returned tt, mkWorld (cout w ++ [s]) (cerr w) (ipcSent w) (pool w) (calls w)).

Definition writeCerr (s : string) : M unit :=
  fun w => (Returned tt, mkWorld (cout w) (cerr w ++ [s]) (ipcSent w) (pool w) (calls w)).

Definition enqueueTask (task : LoadTask) : M unit :=
  fun w => (Returned tt,
            mkWorld (cout w) (cerr w) (ipcSent w)
                    (ThreadPool.enqueueTask task (pool w)) (calls w)).

Definition when (flag : bool) (m : M unit) : M unit :=
  if flag then m else ret tt.

Definition whenSet {A : Type} (flag : option A) (m : A -> M unit) : M unit :=
  match flag with
  | Some v => m v
  | None => ret tt
  end.

(** The outcome of the process. *)
Inductive ProcessExit : Type :=
| Exit (code : Z)
| Terminate (e : Exn).   (* an exception left [main]: std::terminate *)

(** ** The entry point *)

Section EntryPoint.

(** The loaded image (include/Image.h); only handed on. *)
Variable Image : Type.

(** Modelled from the spec: the struct [ImageAddition], declared in a
    header, "{ shouldReplace: bool, payload: LoadedImage-or-null }";
    main.cpp:172 builds it as [{false, image}].  A null pointer is [None]. *)
Record ImageAddition : Type := mkImageAddition {
  shouldReplace : bool;
  image : option Image
}.

(** The collaborators of the entry point. *)
Record Env : Type := mkEnv {
  (* args.hxx: parsing of the command line and the rendered help *)
  ParseCLI : list string -> ParseResult;
  helpText : string;
  (* Ipc: the role of this process, decided when the Ipc object is made *)
  isPrimaryInstance : bool;
  (* Common: may throw *)
  absolutePath : string -> Outcome string;
  (* Ipc: may throw; the answer may depend on what was sent before *)
  sendToPrimaryInstance : list string -> string -> Outcome unit;
  (* Image loader: a null pointer on failure *)
  tryLoadImage : string -> string -> option Image;
  (* Common: may throw *)
  toMetric : string -> Outcome EMetric;
  toTonemap : string -> Outcome ETonemap;
  (* nanogui, ImageViewer, ThreadPool::shutdown: [Some e] when the call throws *)
  callFails : Call -> option Exn
}.

Variable env : Env.

(** A call on the windowing side or on the pool.  A call that throws
    leaves no entry: [calls] lists the calls that have returned. *)
Definition call (c : Call) : M unit :=
  fun w =>
    match callFails env c with
    | Some e => (Threw e, w)
    | None =>
        (Returned tt, mkWorld (cout w) (cerr w) (ipcSent w) (pool w) (calls w ++ [c]))
    end.

Definition send (payload : string) : M unit :=
  fun w =>
    (sendToPrimaryInstance env (ipcSent w) payload,
     mkWorld (cout w) (cerr w) (ipcSent w ++ [payload]) (pool w) (calls w)).

(** main.cpp:146-150, the body of the secondary loop for a file token. *)
Definition forwardOne (imageFile channelSelector : string) : M unit :=
  tryCatchRuntime
    (path <- lift (absolutePath env imageFile) ;;
     send (path +++ ":" +++ channelSelector))
    (fun e =>
       writeCerr ("Invalid file '" +++ imageFile +++ "': " +++ exn_what e +++ endl)).

(** main.cpp:139-151 *)
Fixpoint forwardLoop (files : list string) (channelSelector : string) : M unit :=
  match files with
  | [] => ret tt
  | imageFile :: rest =>
      match asSelector imageFile with
      | Some sel => forwardLoop rest sel
      | None =>
          forwardOne imageFile channelSelector ;;
          forwardLoop rest channelSelector
      end
  end.

(** main.cpp:162-175 *)
Fixpoint loadLoop (files : list string) (channelSelector : string) : M unit :=
  match files with
  | [] => ret tt
  | imageFile :: rest =>
      match asSelector imageFile with
      | Some sel => loadLoop rest sel
      | None =>
          enqueueTask (mkLoadTask imageFile channelSelector) ;;
          loadLoop rest channelSelector
      end
  end.

(** main.cpp:169-174, the body of the task: what running it does to
    [imagesToAdd]. *)
Definition runTask (task : LoadTask) (imagesToAdd : SharedQueue.t ImageAddition)
  : SharedQueue.t ImageAddition :=
  match tryLoadImage env (task_imageFile task) (task_channelSelector task) with
  | Some img => SharedQueue.push (mkImageAddition false (Some img)) imagesToAdd
  | None => imagesToAdd
  end.

(** main.cpp:185-189, the condition. *)
Definition shouldMaximize (a : Args) : bool :=
  match maximizeFlag a with
  | Some v => v
  | None => matched (imageFiles a)
  end.

(** main.cpp:24-212.  The [Ipc] object is made first and fixes
    [isPrimaryInstance]; [Imf::setGlobalThreadCount] and the declaration of
    the flags leave no trace in [World]. *)
Definition mainFunc (argv : list string) : M Z :=
  match ParseCLI env argv with
  | ThrowsHelp =>
      writeCout (helpText env) ;;
      ret 0%Z
  | ThrowsParseError what =>
      writeCerr (what +++ endl) ;;
      writeCerr (helpText env) ;;
      ret (-1)%Z
  | ThrowsValidationError what =>
      writeCerr (what +++ endl) ;;
      writeCerr (helpText env) ;;
      ret (-2)%Z
  | ThrowsOther e => throw e
  | Parsed a =>
      if negb (isPrimaryInstance env) then
        forwardLoop (imageFiles a) "" ;;
        ret 0%Z
      else
        writeCout ("Loading window..." +++ endl) ;;
        loadLoop (imageFiles a) "" ;;
        call NanoguiInit ;;
        call NewImageViewer ;;
        call DrawAll ;;
        call (SetVisible true) ;;
        when (shouldMaximize a) (call Maximize) ;;
        whenSet (exposureFlag a) (fun x => call (SetExposure x)) ;;
        whenSet (filterFlag a) (fun s => call (SetFilter s)) ;;
        whenSet (metricFlag a)
          (fun s => (m <- lift (toMetric env s) ;; call (SetMetric m))) ;;
        whenSet (offsetFlag a) (fun x => call (SetOffset x)) ;;
        whenSet (tonemapFlag a)
          (fun s => (t <- lift (toTonemap env s) ;; call (SetTonemap t))) ;;
        call (Mainloop 250) ;;
        call ThreadPoolShutdown ;;
        ret 0%Z
  end.

(** main.cpp:216-223.  The value of [mainFunc] is not used; control that
    reaches the end of [main] returns 0. *)
Definition main (argv : list string) (w : World) : ProcessExit * World :=
  match mainFunc argv w with
  | (Returned _, w') => (Exit 0, w')
  | (Threw e, w') =>
      if exn_runtime e then
        match writeCerr ("Uncaught exception: " +++ exn_what e +++ endl) w' with
        | (_, w'') => (Exit 1, w'')
        end
      else (Terminate e, w')
  end.

(** ** The startup loads as they run

    The loop of main.cpp:162-175 submits tasks while the single worker
    already runs them (oldest first, see [ThreadPool]) and the interactive
    thread "polls tryPop() on the Concurrent Queue once per tick". *)
Record Startup : Type := mkStartup {
  todo : list string;                       (* tokens the loop has not reached *)
  selector : string;                        (* channelSelector *)
  submitted : ThreadPool.t LoadTask;        (* waiting in the single-worker pool *)
  executed : list LoadTask;                 (* run by the worker, oldest first *)
  imagesToAdd : SharedQueue.t ImageAddition;
  polled : list ImageAddition               (* taken out by the interactive thread *)
}.

Inductive startupStep : Startup -> Startup -> Prop :=
| loop_selector : forall imageFile sel rest cs p ex q got,
    asSelector imageFile = Some sel ->
    startupStep (mkStartup (imageFile :: rest) cs p ex q got)
                (mkStartup rest sel p ex q got)
| loop_enqueue : forall imageFile rest cs p ex q got,
    asSelector imageFile = None ->
    startupStep (mkStartup (imageFile :: rest) cs p ex q got)
                (mkStartup rest cs
                   (ThreadPool.enqueueTask (mkLoadTask imageFile cs) p) ex q got)
| worker_run : forall ts cs p task p' ex q got,
    ThreadPool.nextTask p = Some (task, p') ->
    startupStep (mkStartup ts cs p ex q got)
                (mkStartup ts cs p' (ex ++ [task]) (runTask task q) got)
| viewer_poll : forall ts cs p ex q got,
    startupStep (mkStartup ts cs p ex q got)
                (mkStartup ts cs p ex (snd (SharedQueue.tryPop q))
                   (got ++ match fst (SharedQueue.tryPop q) with
                           | Some x => [x]
                           | None => []
                           end)).

Inductive startupRun : Startup -> Startup -> Prop :=
| run_refl : forall s, startupRun s s
| run_step : forall s1 s2 s3, startupRun s1 s2 -> startupStep s2 s3 -> startupRun s1 s3.

Definition startupInit (tokens : list string) : Startup :=
  mkStartup tokens "" [] [] SharedQueue.empty [].

(** The loop is through and the pool has run everything it was given. *)
Definition startupDone (s : Startup) : Prop :=
  todo s = [] /\ submitted s = [].

(** The worker running a batch of tasks, oldest first. *)
Definition drainPool (p : ThreadPool.t LoadTask) (q : SharedQueue.t ImageAddition)
  : SharedQueue.t ImageAddition :=
  fold_left (fun q task => runTask task q) p q.

End EntryPoint.

Arguments mkImageAddition {Image} _ _.
Arguments shouldReplace {Image} _.
Arguments image {Image} _.
Arguments mkEnv {Image} _ _ _ _ _ _ _ _ _.
Arguments ParseCLI {Image} _ _.
Arguments helpText {Image} _.
Arguments isPrimaryInstance {Image} _.
Arguments absolutePath {Image} _ _.
Arguments sendToPrimaryInstance {Image} _ _ _.
Arguments tryLoadImage {Image} _ _ _.
Arguments toMetric {Image} _ _.
Arguments toTonemap {Image} _ _.
Arguments callFails {Image} _ _.
Arguments call {Image} env c _.
Arguments send {Image} env payload _.
Arguments forwardOne {Image} env imageFile channelSelector _.
Arguments forwardLoop {Image} env files channelSelector _.
Arguments runTask {Image} env task imagesToAdd.
Arguments mainFunc {Image} env argv _.
Arguments main {Image} env argv w.
Arguments mkStartup {Image} _ _ _ _ _ _.
Arguments todo {Image} _.
Arguments selector {Image} _.
Arguments submitted {Image} _.
Arguments executed {Image} _.
Arguments imagesToAdd {Image} _.
Arguments polled {Image} _.
Arguments startupStep {Image} env _ _.
Arguments startupRun {Image} env _ _.
Arguments startupInit {Image} tokens.
Arguments startupDone {Image} s.
Arguments drainPool {Image} env p q.

(** ** The command line as the spec reads it

    "Channel selector is empty by default; a request prefixed with a
    sentinel character in raw input reconfigures the selector for all
    following requests until changed."  The process entry "supplies the
    ordered list of (path, channelSelector) pairs derived from
    command-line input". *)

(** The selector set by the nearest selector token, looking backwards. *)
Fixpoint mostRecentSelector (newestFirst : list string) : string :=
  match newestFirst with
  | [] => ""
  | token :: older =>
      match asSelector token with
      | Some sel => sel
      | None => mostRecentSelector older
      end
  end.

Definition activeSelector (before : list string) : string :=
  mostRecentSelector (rev before).

(** The request made by the token at position [i], if it names a file. *)
Definition requestAt (tokens : list string) (i : nat) : list (string * string) :=
  match nth_error tokens i with
  | Some token =>
      if isSelector token then []
      else [(token, activeSelector (firstn i tokens))]
  | None => []
  end.

Definition requests (tokens : list string) : list (string * string) :=
  flat_map (requestAt tokens) (seq 0 (length tokens)).

(** The same list, computed front to back from a given selector. *)
Fixpoint requestsFrom (cs : string) (tokens : list string) : list (string * string) :=
  match tokens with
  | [] => []
  | token :: rest =>
      match asSelector token with
      | Some sel => requestsFrom sel rest
      | None => (token, cs) :: requestsFrom cs rest
      end
  end.

Definition taskOf (request : string * string) : LoadTask :=
  mkLoadTask (fst request) (snd request).

(** The tokens that name images. *)
Definition imagesSupplied (tokens : list string) : list string :=
  filter (fun token => negb (isSelector token)) tokens.

(** Wire payload of a request, spec section 6:
    absolutePath + ":" + channelSelector. *)
Definition payload (absPath channelSelector : string) : string :=
  absPath +++ ":" +++ channelSelector.

Section Forwarding.

Context {Image : Type} (env : Env Image).

(** Forwarding a list of requests one after the other. *)
Fixpoint forwardAll (reqs : list (string * string)) : M unit :=
  match reqs with
  | [] => ret tt
  | (file, sel) :: rest => forwardOne env file sel ;; forwardAll rest
  end.

(** The payloads handed to the transport for a list of requests: one for
    each request whose path can be made absolute. *)
Definition payloads (reqs : list (string * string)) : list string :=
  flat_map (fun request =>
              match absolutePath env (fst request) with
              | Returned p => [payload p (snd request)]
              | Threw _ => []
              end) reqs.

Definition invalidFile (file : string) (e : Exn) : string :=
  "Invalid file '" +++ file +++ "': " +++ exn_what e +++ endl.

(** The failure reports for a list of requests, [sent] being what was
    handed to the transport before. *)
Fixpoint reports (sent : list string) (reqs : list (string * string)) : list string :=
  match reqs with
  | [] => []
  | (file, sel) :: rest =>
      match absolutePath env file with
      | Threw e => invalidFile file e :: reports sent rest
      | Returned p =>
          match sendToPrimaryInstance env sent (payload p sel) with
          | Threw e => invalidFile file e :: reports (sent ++ [payload p sel]) rest
          | Returned _ => reports (sent ++ [payload p sel]) rest
          end
      end
  end.

(** Collaborators that fail only by throwing [std::runtime_error]. *)
Definition failsByRuntimeError : Prop :=
  (forall file e, absolutePath env file = Threw e -> exn_runtime e = true) /\
  (forall sent msg e, sendToPrimaryInstance env sent msg = Threw e -> exn_runtime e = true).

(** Does the task load an image? *)
Definition loads (task : LoadTask) : bool :=
  match tryLoadImage env (task_imageFile task) (task_channelSelector task) with
  | Some _ => true
  | None => false
  end.

End Forwarding.

(** ** A sample environment

    Images are stood for by their names.  The parser knows "--help" and
    takes every token without a leading dash as a positional; the
    transport reaches the primary instance or not; the loader fails on
    "/missing.exr"; nanogui starts or not. *)

Definition startsWithDash (token : string) : bool :=
  match token with
  | String c _ => Ascii.eqb c "-"%char
  | EmptyString => false
  end.

Definition sampleParseCLI (argv : list string) : ParseResult :=
  match argv with
  | [] => Parsed (mkArgs None None None None None None [])
  | _ :: rest =>
      if existsb (String.eqb "--help") rest then ThrowsHelp
      else
        match find startsWithDash rest with
        | Some flag => ThrowsParseError ("Flag could not be matched: " +++ flag)
        | None => Parsed (mkArgs None None None None None None rest)
        end
  end.

Definition sampleAbsolutePath (file : string) : Outcome string :=
  match file with
  | EmptyString => Threw (mkExn true "Could not obtain absolute path")
  | String c _ =>
      if Ascii.eqb c "/"%char then Returned file else Returned ("/home/user/" +++ file)
  end.

Definition sampleSend (reachable : bool) (sent : list string) (msg : string)
  : Outcome unit :=
  if reachable then Returned tt
  else Threw (mkExn true "Could not connect to primary instance").

Definition sampleLoad (file channelSelector : string) : option string :=
  if String.eqb file "/missing.exr" then None else Some file.

Definition sampleEnv (primary reachable guiStarts : bool) : Env string :=
  mkEnv sampleParseCLI "Usage: tev" primary sampleAbsolutePath (sampleSend reachable)
        sampleLoad
        (fun _ => Returned Error) (fun _ => Returned SRGB)
        (fun c =>
           match c with
           | NanoguiInit =>
               if guiStarts then None
               else Some (mkExn true "Could not initialize GLFW!")
           | _ => None
           end).

(** ** Invariants of the two systems *)

Section Invariants.

Context {Image : Type} (env : Env Image).

(** An addition as the startup tasks make it. *)
Definition freshImage (addition : ImageAddition Image) : Prop :=
  shouldReplace addition = false /\ image addition <> None.

(** What every state of a startup run satisfies: the tasks run so far,
    the tasks waiting and the tasks the loop will still submit make up
    the requests of the command line, in order; and the additions polled
    or waiting are what the tasks run so far have pushed. *)
Definition startupInv (tokens : list string) (s : Startup Image) : Prop :=
  map taskOf (requests tokens) =
    executed s ++ submitted s ++ map taskOf (requestsFrom (selector s) (todo s)) /\
  polled s ++ imagesToAdd s = drainPool env (executed s) [].

End Invariants.

Section QueueInvariant.

Context {A : Type}.

(** Nothing is lost and nothing is made up: what was polled, what waits
    in the queue and what is still to be pushed are, together, the items
    the producers started with. *)
Definition accounted (threads : list (list A)) (s : SharedQueue.Sys A) : Prop :=
  Permutation
    (SharedQueue.consumed s ++ SharedQueue.contents s ++ concat (SharedQueue.producers s))
    (concat threads).

End QueueInvariant.

(** ** Sample runs *)

(** A run of the sample environment on "a.exr :R /missing.exr": the
    worker loads the first image while the loop is still going, the
    viewer polls it, and the second load fails. *)
Definition sampleFinal : Startup string :=
  mkStartup [] "R" []
    [mkLoadTask "a.exr" ""; mkLoadTask "/missing.exr" "R"]
    [] [mkImageAddition false (Some "a.exr")].

(** Two producers with two items each; the second producer gets in
    between the pushes of the first, and the consumer polls once early. *)
Definition sampleQueueRun : SharedQueue.Sys nat :=
  SharedQueue.mkSys [[]; []] [10; 2; 20] [1].

(** ** The rest of the entry point *)

(** The selector in force after the loop of main.cpp:140-151 (or 163-175)
    has gone over [tokens], having started with [cs]. *)
Definition selectorAfter (cs : string) (tokens : list string) : string :=
  fold_left (fun current token =>
               match asSelector token with
               | Some sel => sel
               | None => current
               end) tokens cs.

(** The string holds no ':'. *)
Fixpoint noColon (s : string) : bool :=
  match s with
  | EmptyString => true
  | String c rest => negb (Ascii.eqb c ":"%char) && noColon rest
  end.

Section Viewer.

Context {Image : Type} (env : Env Image).

(** main.cpp:177-211, the primary instance from [nanogui::init()] on. *)
Definition showViewer (a : Args) : M Z :=
  call env NanoguiInit ;;
  call env NewImageViewer ;;
  call env DrawAll ;;
  call env (SetVisible true) ;;
  when (shouldMaximize a) (call env Maximize) ;;
  whenSet (exposureFlag a) (fun x => call env (SetExposure x)) ;;
  whenSet (filterFlag a) (fun s => call env (SetFilter s)) ;;
  whenSet (metricFlag a)
    (fun s => (m <- lift (toMetric env s) ;; call env (SetMetric m))) ;;
  whenSet (offsetFlag a) (fun x => call env (SetOffset x)) ;;
  whenSet (tonemapFlag a)
    (fun s => (t <- lift (toTonemap env s) ;; call env (SetTonemap t))) ;;
  call env (Mainloop 250) ;;
  call env ThreadPoolShutdown ;;
  ret 0%Z.

(** The additions the startup tasks of a list of requests push: one for
    each request whose image loads. *)
Definition additionsOf (reqs : list (string * string)) : list (ImageAddition Image) :=
  flat_map (fun request =>
              match tryLoadImage env (fst request) (snd request) with
              | Some img => [mkImageAddition false (Some img)]
              | None => []
              end) reqs.

(** The exception came out of [absolutePath] or [sendToPrimaryInstance]. *)
Definition thrownByCollaborator (files : list string) (e : Exn) : Prop :=
  (exists file, In file files /\ absolutePath env file = Threw e) \/
  (exists sent msg, sendToPrimaryInstance env sent msg = Threw e).

End Viewer.

(** A computation that only makes calls, all of them in [allowed], and
    leaves the streams, the transport and the pool alone. *)
Definition callsOnly {A : Type} (allowed : Call -> Prop) (m : M A) : Prop :=
  forall w,
    cout (snd (m w)) = cout w /\
    cerr (snd (m w)) = cerr w /\
    ipcSent (snd (m w)) = ipcSent w /\
    pool (snd (m w)) = pool w /\
    exists added, calls (snd (m w)) = calls w ++ added /\ Forall allowed added.

(** ** The Windows entry point (main.cpp:225-251) *)

Inductive StdStream : Type := Stdout | Stderr | Stdin.

(** The console calls of [reconnectIo], in the order they are made. *)
Inductive ConsoleCall : Type :=
| AttachConsole              (* AttachConsole(ATTACH_PARENT_PROCESS) *)
| AllocConsole
| Freopen (name mode : string) (stream : StdStream)
| SyncWithStdio.

(** What the operating system answers. *)
Record Console : Type := mkConsole {
  attachSucceeds : bool;     (* the parent process has a console *)
  allocSucceeds : bool
}.

Definition reopenStreams : list ConsoleCall :=
  [Freopen "CON" "w" Stdout; Freopen "CON" "w" Stderr; Freopen "CON" "r" Stdin;
   SyncWithStdio].

(** main.cpp:226-245; the result and the calls made. *)
Definition reconnectIo (os : Console) (openNewConsole : bool)
  : bool * list ConsoleCall :=
  let madeConsole := false in
  if negb (attachSucceeds os) then
    if negb openNewConsole then (false, [AttachConsole])
    else
      let madeConsole := true in
      if negb (allocSucceeds os) then (false, [AttachConsole; AllocConsole])
      else (madeConsole, [AttachConsole; AllocConsole] ++ reopenStreams)
  else (madeConsole, [AttachConsole] ++ reopenStreams).

(** main.cpp:247-250 *)
Definition WinMain {Image : Type} (os : Console) (env : Env Image)
    (argv : list string) (w : World) : ProcessExit * World * list ConsoleCall :=
  let (_, consoleCalls) := reconnectIo os false in
  (main env argv w, consoleCalls).

(** A secondary instance whose path resolution runs out of memory: the
    exception is no [std::runtime_error]. *)
Definition outOfMemoryEnv : Env string :=
  mkEnv sampleParseCLI "Usage: tev" false
        (fun file =>
           if String.eqb file "huge.exr" then Threw (mkExn false "std::bad_alloc")
           else sampleAbsolutePath file)
        (sampleSend true) sampleLoad
        (fun _ => Returned Error) (fun _ => Returned SRGB) (fun _ => None).

Section ViewerCalls.

Context {Image : Type} (env : Env Image).

Definition flagCall {A : Type} (flag : option A) (c : A -> Call) : list Call :=
  match flag with
  | Some v => [c v]
  | None => []
  end.

(** The calls of a primary instance that runs to its end, in order. *)
Definition viewerCalls (a : Args) : list Call :=
  [NanoguiInit; NewImageViewer; DrawAll; SetVisible true]
  ++ (if shouldMaximize a then [Maximize] else [])
  ++ flagCall (exposureFlag a) SetExposure
  ++ flagCall (filterFlag a) SetFilter
  ++ match metricFlag a with
     | Some s => match toMetric env s with Returned m => [SetMetric m] | Threw _ => [] end
     | None => []
     end
  ++ flagCall (offsetFlag a) SetOffset
  ++ match tonemapFlag a with
     | Some s => match toTonemap env s with Returned t => [SetTonemap t] | Threw _ => [] end
     | None => []
     end
  ++ [Mainloop 250; ThreadPoolShutdown].


End ViewerCalls.

(** A primary instance asked for a metric that [toMetric] refuses with a
    [std::invalid_argument]. *)
Definition badMetricEnv : Env string :=
  mkEnv (fun argv =>
           Parsed (mkArgs None None (Some false) (Some "XYZ") None None ["a.exr"]))
        "Usage: tev" true sampleAbsolutePath (sampleSend true) sampleLoad
        (fun s => Threw (mkExn false ("Invalid metric: " +++ s)))
        (fun _ => Returned SRGB) (fun _ => None).

(** A primary instance started with every flag set. *)
Definition allFlagsEnv : Env string :=
  mkEnv (fun argv =>
           Parsed (mkArgs (Some 1%Z) (Some "img:layer") (Some false) (Some "SE")
                          (Some 2%Z) (Some "FC") ["a.exr"; ":R"; "b.exr"]))
        "Usage: tev" true sampleAbsolutePath (sampleSend true) sampleLoad
        (fun _ => Returned SquaredError) (fun _ => Returned FalseColor)
        (fun _ => None).

(** The computation throws, and has neither entered the main loop nor
    shut the pool down. *)
Definition stopsEarly {A : Type} (m : M A) : Prop :=
  forall w,
  exists e added,
    fst (m w) = Threw e /\
    calls (snd (m w)) = calls w ++ added /\
    Forall (fun c => c <> Mainloop 250 /\ c <> ThreadPoolShutdown) added.

(** Where [allFlagsEnv] ends up when started in the empty world. *)
Definition allFlagsFinal : World :=
  mkWorld ["Loading window..." +++ endl] [] []
          [mkLoadTask "a.exr" ""; mkLoadTask "b.exr" "R"]
          [NanoguiInit; NewImageViewer; DrawAll; SetVisible true;
           SetExposure 1%Z; SetFilter "img:layer"; SetMetric SquaredError;
           SetOffset 2%Z; SetTonemap FalseColor; Mainloop 250; ThreadPoolShutdown].

(** ** Selector tokens in the spec's words

    "a token beginning with a reserved prefix character changes the
    active selector for subsequent entries rather than naming a file";
    the prefix character is ':' and the selector is what follows it. *)







(** A secondary instance whose transport fails with a [std::logic_error]
    once something has been sent. *)
Definition logicErrorEnv : Env string :=
  mkEnv sampleParseCLI "Usage: tev" false sampleAbsolutePath
        (fun sent msg =>
           match sent with
           | [] => Returned tt
           | _ :: _ => Threw (mkExn false "std::logic_error")
           end)
        sampleLoad
        (fun _ => Returned Error) (fun _ => Returned SRGB) (fun _ => None).


(** * Properties *)

(** ** Selector tokens and the list of requests *)


Lemma activeSelector_nil : activeSelector [] = "".
Proof. reflexivity. Qed.

Lemma activeSelector_snoc (before : list string) (token : string) :
  activeSelector (before ++ [token]) =
  match asSelector token with
  | Some sel => sel
  | None => activeSelector before
  end.
Proof.
  unfold activeSelector. rewrite rev_app_distr. reflexivity.
Qed.

Lemma requestAt_middle (before rest : list string) (token : string) :
  requestAt (before ++ token :: rest) (length before) =
  if isSelector token then [] else [(token, activeSelector before)].
Proof.
  unfold requestAt.
  rewrite nth_error_app2 by lia.
  rewrite Nat.sub_diag. simpl.
  rewrite firstn_app, Nat.sub_diag, firstn_all. simpl.
  rewrite app_nil_r. reflexivity.
Qed.

Lemma requests_window (tokens before : list string) :
  flat_map (requestAt (before ++ tokens)) (seq (length before) (length tokens)) =
  requestsFrom (activeSelector before) tokens.
Proof.
  revert before. induction tokens as [|token rest IH]; intros before.
  - reflexivity.
  - cbn [length seq flat_map requestsFrom].
    rewrite requestAt_middle.
    specialize (IH (before ++ [token])).
    rewrite <- app_assoc in IH. cbn [app] in IH.
    rewrite length_app in IH. cbn [length] in IH.
    rewrite Nat.add_1_r in IH.
    rewrite IH, activeSelector_snoc.
    unfold isSelector. destruct (asSelector token); reflexivity.
Qed.

Lemma requests_requestsFrom (tokens : list string) :
  requests tokens = requestsFrom "" tokens.
Proof.
  exact (requests_window tokens []).
Qed.

Lemma requestsFrom_length (tokens : list string) (cs : string) :
  length (requestsFrom cs tokens) = length (imagesSupplied tokens).
Proof.
  revert cs. induction tokens as [|token rest IH]; intros cs.
  - reflexivity.
  - cbn [requestsFrom imagesSupplied filter]. unfold isSelector.
    destruct (asSelector token); cbn [negb length].
    + apply IH.
    + f_equal. apply IH.
Qed.

Lemma requestsFrom_files (tokens : list string) (cs : string) :
  map fst (requestsFrom cs tokens) = imagesSupplied tokens.
Proof.
  revert cs. induction tokens as [|token rest IH]; intros cs.
  - reflexivity.
  - cbn [requestsFrom imagesSupplied filter]. unfold isSelector.
    destruct (asSelector token); cbn [negb map fst].
    + apply IH.
    + f_equal. apply IH.
Qed.

(** ** The two loops of [mainFunc] *)

Section Loops.

Context {Image : Type} (env : Env Image).

Lemma forwardLoop_requestsFrom (tokens : list string) :
  forall cs w,
    forwardLoop env tokens cs w = forwardAll env (requestsFrom cs tokens) w.
Proof.
  induction tokens as [|token rest IH]; intros cs w.
  - reflexivity.
  - cbn [forwardLoop requestsFrom].
    destruct (asSelector token) as [sel|].
    + apply IH.
    + cbn [forwardAll]. unfold bind.
      destruct (forwardOne env token cs w) as [[[]|e] w']; [apply IH | reflexivity].
Qed.

Lemma loadLoop_world (tokens : list string) :
  forall cs w,
    loadLoop tokens cs w =
    (Returned tt,
     mkWorld (cout w) (cerr w) (ipcSent w)
             (pool w ++ map taskOf (requestsFrom cs tokens)) (calls w)).
Proof.
  induction tokens as [|token rest IH]; intros cs w.
  - cbn. rewrite app_nil_r. destruct w; reflexivity.
  - cbn [loadLoop requestsFrom].
    destruct (asSelector token) as [sel|].
    + apply IH.
    + unfold bind, enqueueTask. rewrite IH. cbn.
      unfold ThreadPool.enqueueTask. rewrite <- app_assoc. reflexivity.
Qed.

Lemma forwardAll_world (H : failsByRuntimeError env) (reqs : list (string * string)) :
  forall w,
    forwardAll env reqs w =
    (Returned tt,
     mkWorld (cout w) (cerr w ++ reports env (ipcSent w) reqs)
             (ipcSent w ++ payloads env reqs) (pool w) (calls w)).
Proof.
  destruct H as [Hpath Hsend].
  induction reqs as [|[file sel] rest IH]; intros w.
  - cbn. rewrite !app_nil_r. destruct w; reflexivity.
  - cbn [forwardAll reports payloads flat_map fst snd].
    unfold bind at 1. unfold forwardOne, tryCatchRuntime, bind, lift, send.
    destruct (absolutePath env file) as [p|e] eqn:Epath.
    + fold (payload p sel).
      destruct (sendToPrimaryInstance env (ipcSent w) (payload p sel)) as [[]|e] eqn:Esend.
      * rewrite IH. cbn. unfold payloads. rewrite <- app_assoc. reflexivity.
      * rewrite (Hsend _ _ _ Esend). unfold writeCerr. rewrite IH. cbn.
        unfold payloads, invalidFile. rewrite <- !app_assoc. reflexivity.
    + rewrite (Hpath _ _ Epath). unfold writeCerr. rewrite IH. cbn.
      unfold payloads, invalidFile. rewrite <- !app_assoc. reflexivity.
Qed.

End Loops.

(** ** Exit codes *)

Lemma sampleEnv_failsByRuntimeError (primary reachable guiStarts : bool) :
  failsByRuntimeError (sampleEnv primary reachable guiStarts).
Proof.
  split.
  - intros file e. cbn. unfold sampleAbsolutePath.
    destruct file as [|c rest].
    + intros [= <-]. reflexivity.
    + destruct (Ascii.eqb c "/"%char); discriminate.
  - intros sent msg e. cbn. unfold sampleSend.
    destruct reachable; [discriminate|].
    intros [= <-]. reflexivity.
Qed.

(** C1.  A secondary instance whose collaborators fail by throwing
    [std::runtime_error] exits with code 0: every token that is not a
    selector is tried in turn, every failure (path or transport) adds its
    own "Invalid file" report to the error stream, and the tokens after a
    failure are still forwarded. *)
Theorem secondary_exits_zero {Image : Type} (env : Env Image)
    (argv : list string) (a : Args) (w : World) :
  ParseCLI env argv = Parsed a ->
  isPrimaryInstance env = false ->
  failsByRuntimeError env ->
  main env argv w =
    (Exit 0,
     mkWorld (cout w)
             (cerr w ++ reports env (ipcSent w) (requests (imageFiles a)))
             (ipcSent w ++ payloads env (requests (imageFiles a)))
             (pool w) (calls w)) /\
  map fst (requests (imageFiles a)) = imagesSupplied (imageFiles a).
Proof.
  intros Hparse Hrole Hfail. split.
  - unfold main, mainFunc. rewrite Hparse, Hrole. cbn [negb].
    unfold bind. rewrite forwardLoop_requestsFrom, <- requests_requestsFrom.
    rewrite (forwardAll_world env Hfail). reflexivity.
  - rewrite requests_requestsFrom. apply requestsFrom_files.
Qed.

Lemma secondary_exits_zero_witness :
  main (sampleEnv false false true) ["tev"; "/real.exr"; "/missing.exr"] emptyWorld =
  (Exit 0,
   mkWorld []
     ["Invalid file '/real.exr': Could not connect to primary instance" +++ endl;
      "Invalid file '/missing.exr': Could not connect to primary instance" +++ endl]
     ["/real.exr:"; "/missing.exr:"] [] []).
Proof.
  exact (proj1 (secondary_exits_zero (sampleEnv false false true)
                  ["tev"; "/real.exr"; "/missing.exr"]
                  (mkArgs None None None None None None ["/real.exr"; "/missing.exr"])
                  emptyWorld eq_refl eq_refl
                  (sampleEnv_failsByRuntimeError false false true))).
Defined.

(** C1, as first worded, fails: a failure that is not a
    [std::runtime_error] is not caught.  Here the transport throws a
    [std::logic_error] on the second file: the process is terminated by
    it instead of exiting with code 0, the failure is not reported, and
    the third file is never tried. *)
Lemma secondary_exits_zero_counterexample :
  ParseCLI logicErrorEnv ["tev"; "/a.exr"; "/b.exr"; "/c.exr"] =
    Parsed (mkArgs None None None None None None ["/a.exr"; "/b.exr"; "/c.exr"]) /\
  isPrimaryInstance logicErrorEnv = false /\
  sendToPrimaryInstance logicErrorEnv ["/a.exr:"] "/b.exr:" =
    Threw (mkExn false "std::logic_error") /\
  main logicErrorEnv ["tev"; "/a.exr"; "/b.exr"; "/c.exr"] emptyWorld =
    (Terminate (mkExn false "std::logic_error"),
     mkWorld [] [] ["/a.exr:"; "/b.exr:"] [] []) /\
  fst (main logicErrorEnv ["tev"; "/a.exr"; "/b.exr"; "/c.exr"] emptyWorld) <> Exit 0.
Proof.
  repeat split; try reflexivity. discriminate.
Qed.

(** C2.  On a parse failure [mainFunc] returns -1 and on a validation
    failure -2, but [main] drops the value: the process exits with code 0
    in both cases, as it does when the help is shown. *)
Theorem parse_failure_exit_code_lost {Image : Type} (env : Env Image)
    (argv : list string) (w : World) :
  (forall what, ParseCLI env argv = ThrowsParseError what ->
     fst (mainFunc env argv w) = Returned (-1)%Z /\
     fst (main env argv w) = Exit 0) /\
  (forall what, ParseCLI env argv = ThrowsValidationError what ->
     fst (mainFunc env argv w) = Returned (-2)%Z /\
     fst (main env argv w) = Exit 0) /\
  (ParseCLI env argv = ThrowsHelp ->
     fst (mainFunc env argv w) = Returned 0%Z /\
     fst (main env argv w) = Exit 0).
Proof.
  unfold main, mainFunc.
  repeat split; try (intros what H); try intros H; rewrite H; reflexivity.
Qed.

Lemma parse_failure_exit_code_lost_witness :
  fst (mainFunc (sampleEnv true true true) ["tev"; "--bogus"] emptyWorld) = Returned (-1)%Z /\
  fst (main (sampleEnv true true true) ["tev"; "--bogus"] emptyWorld) = Exit 0.
Proof.
  exact (proj1 (parse_failure_exit_code_lost (sampleEnv true true true)
                  ["tev"; "--bogus"] emptyWorld)
               "Flag could not be matched: --bogus" eq_refl).
Defined.

(** C9.  When [mainFunc] throws a [std::runtime_error], [main] writes
    "Uncaught exception: " and the message to the error stream and the
    process exits with code 1; when [mainFunc] returns, whatever value it
    returns, the process exits with code 0. *)
Theorem main_exit_codes {Image : Type} (env : Env Image)
    (argv : list string) (w : World) :
  (forall e w',
     mainFunc env argv w = (Threw e, w') ->
     exn_runtime e = true ->
     main env argv w =
       (Exit 1,
        mkWorld (cout w')
                (cerr w' ++ ["Uncaught exception: " +++ exn_what e +++ endl])
                (ipcSent w') (pool w') (calls w'))) /\
  (forall n w',
     mainFunc env argv w = (Returned n, w') ->
     main env argv w = (Exit 0, w')).
Proof.
  unfold main. split.
  - intros e w' Hthrow Hruntime. rewrite Hthrow, Hruntime. reflexivity.
  - intros n w' Hret. rewrite Hret. reflexivity.
Qed.

Lemma main_exit_codes_witness :
  main (sampleEnv true true false) ["tev"; "a.exr"] emptyWorld =
    (Exit 1,
     mkWorld ["Loading window..." +++ endl]
             ["Uncaught exception: Could not initialize GLFW!" +++ endl]
             [] [mkLoadTask "a.exr" ""] []) /\
  main (sampleEnv true true false) ["tev"; "--bogus"] emptyWorld =
    (Exit 0,
     mkWorld [] ["Flag could not be matched: --bogus" +++ endl; "Usage: tev"] [] [] []).
Proof.
  split.
  - exact (proj1 (main_exit_codes (sampleEnv true true false) ["tev"; "a.exr"] emptyWorld)
                 (mkExn true "Could not initialize GLFW!")
                 (mkWorld ["Loading window..." +++ endl] [] [] [mkLoadTask "a.exr" ""] [])
                 eq_refl eq_refl).
  - exact (proj2 (main_exit_codes (sampleEnv true true false) ["tev"; "--bogus"] emptyWorld)
                 (-1)%Z
                 (mkWorld [] ["Flag could not be matched: --bogus" +++ endl; "Usage: tev"]
                          [] [] [])
                 eq_refl).
Defined.

(** ** Maximizing on startup *)

(** C3.  With the maximize flag absent, a command line that holds only a
    channel selector supplies no image, and yet the window is maximized:
    the positional list was matched. *)
Theorem selector_only_command_line_maximizes (sel : string) :
  imagesSupplied [":" +++ sel] = [] /\
  shouldMaximize (mkArgs None None None None None None [":" +++ sel]) = true /\
  ParseCLI (sampleEnv true true true) ["tev"; ":R"] =
    Parsed (mkArgs None None None None None None [":R"]) /\
  calls (snd (mainFunc (sampleEnv true true true) ["tev"; ":R"] emptyWorld)) =
    [NanoguiInit; NewImageViewer; DrawAll; SetVisible true; Maximize;
     Mainloop 250; ThreadPoolShutdown].
Proof.
  repeat split; reflexivity.
Qed.

Lemma shouldMaximize_cases (a : Args) :
  shouldMaximize a = true <->
  maximizeFlag a = Some true \/ (maximizeFlag a = None /\ imageFiles a <> []).
Proof.
  unfold shouldMaximize, matched.
  destruct (maximizeFlag a) as [[|]|]; destruct (imageFiles a) as [|token rest].
  all: split; [intros H | intros [H|[H1 H2]]].
  all: try discriminate; try reflexivity; try congruence.
  all: try (left; reflexivity).
  all: right; split; [reflexivity | discriminate].
Qed.

(** ** Channel selectors *)






(** ** The forwarded payload *)


Lemma forwardOne_sent {Image : Type} (env : Env Image) (file sel : string) (w : World) :
  ipcSent (snd (forwardOne env file sel w)) =
  ipcSent w ++ match absolutePath env file with
               | Returned p => [p +++ ":" +++ sel]
               | Threw _ => []
               end.
Proof.
  unfold forwardOne, tryCatchRuntime, bind, lift, send, writeCerr.
  destruct (absolutePath env file) as [p|e].
  - destruct (sendToPrimaryInstance env (ipcSent w) (p +++ ":" +++ sel)) as [[]|e];
      [reflexivity|].
    destruct (exn_runtime e); reflexivity.
  - destruct (exn_runtime e); cbn; now rewrite app_nil_r.
Qed.



(** ** The startup loads *)

Section StartupLoads.

Context {Image : Type} (env : Env Image).

Lemma runTask_cases (task : LoadTask) (q : SharedQueue.t (ImageAddition Image)) :
  runTask env task q =
  q ++ match tryLoadImage env (task_imageFile task) (task_channelSelector task) with
       | Some img => [mkImageAddition false (Some img)]
       | None => []
       end.
Proof.
  unfold runTask, SharedQueue.push.
  destruct (tryLoadImage env _ _); [reflexivity | now rewrite app_nil_r].
Qed.

Lemma runTask_app (task : LoadTask) (got q : list (ImageAddition Image)) :
  runTask env task (got ++ q) = got ++ runTask env task q.
Proof.
  rewrite !runTask_cases. now rewrite app_assoc.
Qed.

Lemma drainPool_snoc (p : list LoadTask) (task : LoadTask)
    (q : SharedQueue.t (ImageAddition Image)) :
  drainPool env (p ++ [task]) q = runTask env task (drainPool env p q).
Proof.
  unfold drainPool. now rewrite fold_left_app.
Qed.

Lemma drainPool_length (p : list LoadTask) :
  forall q, length (drainPool env p q) = length q + length (filter (loads env) p).
Proof.
  induction p as [|task rest IH]; intros q.
  - cbn. lia.
  - cbn [drainPool fold_left filter]. fold (drainPool env rest (runTask env task q)).
    rewrite IH, runTask_cases, length_app. unfold loads.
    destruct (tryLoadImage env _ _); cbn [length]; lia.
Qed.

Lemma runTask_fresh (task : LoadTask) (q : SharedQueue.t (ImageAddition Image)) :
  Forall freshImage q -> Forall freshImage (runTask env task q).
Proof.
  intros Hq. rewrite runTask_cases. apply Forall_app. split; [exact Hq|].
  destruct (tryLoadImage env _ _); constructor; [|constructor].
  split; [reflexivity | discriminate].
Qed.

Lemma drainPool_fresh (p : list LoadTask) :
  forall q, Forall freshImage q -> Forall freshImage (drainPool env p q).
Proof.
  induction p as [|task rest IH]; intros q Hq; [exact Hq|].
  cbn [drainPool fold_left]. apply IH, runTask_fresh, Hq.
Qed.

Lemma startupInv_init (tokens : list string) :
  startupInv env tokens (startupInit tokens).
Proof.
  split; [|reflexivity]. cbn. now rewrite requests_requestsFrom.
Qed.

Lemma startupInv_step (tokens : list string) (s s' : Startup Image) :
  startupInv env tokens s -> startupStep env s s' -> startupInv env tokens s'.
Proof.
  intros [Horder Hqueue] Hstep. unfold startupInv.
  destruct Hstep as [imageFile sel rest cs p ex q got Hsel
                    |imageFile rest cs p ex q got Hsel
                    |ts cs p task p' ex q got Hnext
                    |ts cs p ex q got];
    cbn [executed submitted selector todo polled imagesToAdd] in *.
  - split; [|exact Hqueue].
    rewrite Horder. cbn [requestsFrom]. now rewrite Hsel.
  - split; [|exact Hqueue].
    rewrite Horder. cbn [requestsFrom]. rewrite Hsel.
    unfold ThreadPool.enqueueTask. cbn [map]. now rewrite <- !app_assoc.
  - destruct p as [|task0 rest0]; [discriminate|].
    injection Hnext as -> ->. split.
    + rewrite Horder. now rewrite <- !app_assoc.
    + rewrite drainPool_snoc, <- Hqueue. symmetry. apply runTask_app.
  - split; [exact Horder|].
    rewrite <- Hqueue. destruct q as [|x rest]; cbn.
    + now rewrite app_nil_r.
    + now rewrite <- app_assoc.
Qed.

Lemma startupInv_run (tokens : list string) (s : Startup Image) :
  startupRun env (startupInit tokens) s -> startupInv env tokens s.
Proof.
  intros Hrun. remember (startupInit tokens) as s0 eqn:Hs0.
  induction Hrun as [s|s1 s2 s3 Hrun IH Hstep].
  - subst. apply startupInv_init.
  - eapply startupInv_step; [apply IH, Hs0 | exact Hstep].
Qed.

Lemma startupRun_trans (s1 s2 s3 : Startup Image) :
  startupRun env s1 s2 -> startupRun env s2 s3 -> startupRun env s1 s3.
Proof.
  intros H12 H23. induction H23 as [s|s2 s3 s4 H23 IH Hstep]; [exact H12|].
  eapply run_step; [apply IH, H12 | exact Hstep].
Qed.

Lemma startupRun_loop (ts : list string) :
  forall cs p ex q got,
  exists cs',
    startupRun env (mkStartup ts cs p ex q got)
      (mkStartup [] cs' (p ++ map taskOf (requestsFrom cs ts)) ex q got).
Proof.
  induction ts as [|imageFile rest IH]; intros cs p ex q got.
  - exists cs. cbn. rewrite app_nil_r. apply run_refl.
  - cbn [requestsFrom]. destruct (asSelector imageFile) as [sel|] eqn:Hsel.
    + destruct (IH sel p ex q got) as [cs' Hrun]. exists cs'.
      eapply startupRun_trans; [|exact Hrun].
      eapply run_step; [apply run_refl | now apply loop_selector].
    + destruct (IH cs (ThreadPool.enqueueTask (mkLoadTask imageFile cs) p) ex q got)
        as [cs' Hrun].
      exists cs'. unfold ThreadPool.enqueueTask in Hrun. rewrite <- app_assoc in Hrun.
      eapply startupRun_trans; [|exact Hrun].
      eapply run_step; [apply run_refl | now apply loop_enqueue].
Qed.

Lemma startupRun_worker (p : list LoadTask) :
  forall ts cs ex q got,
    startupRun env (mkStartup ts cs p ex q got)
      (mkStartup ts cs [] (ex ++ p) (drainPool env p q) got).
Proof.
  induction p as [|task rest IH]; intros ts cs ex q got.
  - cbn. rewrite app_nil_r. apply run_refl.
  - eapply startupRun_trans.
    + eapply run_step; [apply run_refl|].
      apply (worker_run _ env ts cs (task :: rest) task rest ex q got). reflexivity.
    + specialize (IH ts cs (ex ++ [task]) (runTask env task q) got).
      rewrite <- app_assoc in IH. exact IH.
Qed.

Lemma startup_can_finish (tokens : list string) :
  exists s, startupRun env (startupInit tokens) s /\ startupDone s.
Proof.
  destruct (startupRun_loop tokens "" [] [] SharedQueue.empty []) as [cs' Hloop].
  eexists. split.
  - eapply startupRun_trans; [exact Hloop | apply startupRun_worker].
  - split; reflexivity.
Qed.

End StartupLoads.

Ltac startup_forward step :=
  eapply startupRun_trans;
  [eapply run_step; [apply run_refl | step] | ].

Lemma sample_startupRun :
  startupRun (sampleEnv true true true)
    (startupInit ["a.exr"; ":R"; "/missing.exr"]) sampleFinal.
Proof.
  unfold startupInit, sampleFinal.
  startup_forward ltac:(apply loop_enqueue; reflexivity).
  startup_forward ltac:(eapply worker_run; reflexivity).
  startup_forward ltac:(eapply loop_selector; reflexivity).
  startup_forward ltac:(apply viewer_poll).
  startup_forward ltac:(apply loop_enqueue; reflexivity).
  startup_forward ltac:(eapply worker_run; reflexivity).
  apply run_refl.
Qed.

(** C6.  A startup load task pushes exactly one ImageAddition when
    [tryLoadImage] gives an image and none when it gives null.  Over any
    run of the startup loads the additions pushed so far are as many as
    the tasks run so far that loaded an image, hence never more than the
    file tokens of the command line. *)
Theorem load_task_pushes_at_most_one {Image : Type} (env : Env Image) :
  (forall task q img,
     tryLoadImage env (task_imageFile task) (task_channelSelector task) = Some img ->
     runTask env task q = q ++ [mkImageAddition false (Some img)]) /\
  (forall task q,
     tryLoadImage env (task_imageFile task) (task_channelSelector task) = None ->
     runTask env task q = q) /\
  (forall tokens s,
     startupRun env (startupInit tokens) s ->
     length (polled s ++ imagesToAdd s) = length (filter (loads env) (executed s)) /\
     length (polled s ++ imagesToAdd s) <= length (imagesSupplied tokens)).
Proof.
  split; [|split].
  - intros task q img Hload. rewrite runTask_cases, Hload. reflexivity.
  - intros task q Hload. rewrite runTask_cases, Hload. apply app_nil_r.
  - intros tokens s Hrun.
    destruct (startupInv_run env tokens s Hrun) as [Horder Hqueue].
    rewrite Hqueue, drainPool_length. cbn [length plus]. split; [reflexivity|].
    rewrite <- (requestsFrom_length tokens ""), <- requests_requestsFrom.
    rewrite <- (length_map taskOf), Horder, length_app.
    pose proof (filter_length_le (loads env) (executed s)). lia.
Qed.

Lemma load_task_pushes_at_most_one_witness :
  length (polled sampleFinal ++ imagesToAdd sampleFinal) = 1 /\
  1 <= length (imagesSupplied ["a.exr"; ":R"; "/missing.exr"]).
Proof.
  exact (proj2 (proj2 (load_task_pushes_at_most_one (sampleEnv true true true)))
               ["a.exr"; ":R"; "/missing.exr"] sampleFinal sample_startupRun).
Defined.

(** C7.  The loop hands the load tasks to the single-worker pool in the
    order of the command line; at every moment the tasks the worker has
    run are an initial stretch of that order, and once the loop is
    through and the pool is empty they are all of it.  Such a moment can
    always be reached. *)
Theorem startup_loads_run_in_command_line_order {Image : Type} (env : Env Image)
    (tokens : list string) :
  (forall w, pool (snd (loadLoop tokens "" w)) = pool w ++ map taskOf (requests tokens)) /\
  (forall s,
     startupRun env (startupInit tokens) s ->
     executed s = firstn (length (executed s)) (map taskOf (requests tokens))) /\
  (forall s,
     startupRun env (startupInit tokens) s ->
     startupDone s ->
     executed s = map taskOf (requests tokens)) /\
  (exists s, startupRun env (startupInit tokens) s /\ startupDone s).
Proof.
  repeat split.
  - intros w. rewrite loadLoop_world, requests_requestsFrom. reflexivity.
  - intros s Hrun. destruct (startupInv_run env tokens s Hrun) as [Horder _].
    rewrite Horder, firstn_app, Nat.sub_diag, firstn_all. cbn.
    now rewrite app_nil_r.
  - intros s Hrun [Htodo Hsub].
    destruct (startupInv_run env tokens s Hrun) as [Horder _].
    rewrite Horder, Htodo, Hsub. cbn. now rewrite app_nil_r.
  - apply startup_can_finish.
Qed.

Lemma startup_loads_run_in_command_line_order_witness :
  executed sampleFinal = [mkLoadTask "a.exr" ""; mkLoadTask "/missing.exr" "R"].
Proof.
  exact (proj1 (proj2 (proj2 (startup_loads_run_in_command_line_order
                                (sampleEnv true true true)
                                ["a.exr"; ":R"; "/missing.exr"])))
               sampleFinal sample_startupRun (conj eq_refl eq_refl)).
Defined.

(** C10.  Whatever a startup load task adds to the queue has
    [shouldReplace] false and carries an image; so does every addition
    polled or waiting at any moment of the startup loads. *)
Theorem startup_additions_never_replace {Image : Type} (env : Env Image) :
  (forall task q,
     exists added,
       runTask env task q = q ++ added /\
       Forall (fun addition =>
                 shouldReplace addition = false /\ image addition <> None) added) /\
  (forall tokens s,
     startupRun env (startupInit tokens) s ->
     Forall (fun addition =>
               shouldReplace addition = false /\ image addition <> None)
            (polled s ++ imagesToAdd s)).
Proof.
  split.
  - intros task q. eexists. split; [apply runTask_cases|].
    destruct (tryLoadImage env _ _); constructor; [|constructor].
    split; [reflexivity | discriminate].
  - intros tokens s Hrun.
    destruct (startupInv_run env tokens s Hrun) as [_ Hqueue].
    rewrite Hqueue. apply (drainPool_fresh env). constructor.
Qed.

Lemma startup_additions_never_replace_witness :
  Forall (fun addition : ImageAddition string =>
            shouldReplace addition = false /\ image addition <> None)
         [mkImageAddition false (Some "a.exr")].
Proof.
  exact (proj2 (startup_additions_never_replace (sampleEnv true true true))
               ["a.exr"; ":R"; "/missing.exr"] sampleFinal sample_startupRun).
Defined.

(** ** The concurrent queue under concurrent producers *)

Section QueueProducers.

Context {A : Type}.

Lemma popAll_enough (q : SharedQueue.t A) :
  forall fuel, length q <= fuel -> SharedQueue.popAll fuel q = (q, []).
Proof.
  induction q as [|item rest IH]; intros fuel Hfuel.
  - destruct fuel; reflexivity.
  - destruct fuel as [|fuel]; cbn in Hfuel; [lia|].
    cbn. rewrite IH by lia. reflexivity.
Qed.

Lemma concat_all_nil (ps : list (list A)) :
  Forall (fun todo => todo = []) ps -> concat ps = [].
Proof.
  induction 1 as [|todo ps Htodo _ IH]; [reflexivity|].
  cbn. now rewrite Htodo, IH.
Qed.

Lemma concat_length_uniform (M : nat) (threads : list (list A)) :
  Forall (fun items => length items = M) threads ->
  length (concat threads) = length threads * M.
Proof.
  induction 1 as [|items threads Hitems _ IH]; [reflexivity|].
  cbn. rewrite length_app, Hitems, IH. reflexivity.
Qed.

Lemma accounted_step (threads : list (list A)) (s s' : SharedQueue.Sys A) :
  accounted threads s -> SharedQueue.step s s' -> accounted threads s'.
Proof.
  unfold accounted. intros Hacc Hstep.
  destruct Hstep as [before item rest after q got | ps q got];
    cbn [SharedQueue.consumed SharedQueue.contents SharedQueue.producers] in *.
  - etransitivity; [|exact Hacc].
    apply Permutation_app_head. unfold SharedQueue.push.
    rewrite <- (app_assoc q [item]). apply Permutation_app_head.
    rewrite !concat_app. cbn [concat app].
    apply (Permutation_middle (concat before) (rest ++ concat after) item).
  - etransitivity; [|exact Hacc].
    destruct q as [|x rest]; cbn.
    + now rewrite app_nil_r.
    + now rewrite <- app_assoc.
Qed.

Lemma accounted_steps (threads : list (list A)) (s : SharedQueue.Sys A) :
  SharedQueue.steps (SharedQueue.start threads) s -> accounted threads s.
Proof.
  intros Hrun. remember (SharedQueue.start threads) as s0 eqn:Hs0.
  induction Hrun as [s|s1 s2 s3 Hrun IH Hstep].
  - subst. unfold accounted. cbn. apply Permutation_refl.
  - eapply accounted_step; [apply IH, Hs0 | exact Hstep].
Qed.

Lemma steps_trans (s1 s2 s3 : SharedQueue.Sys A) :
  SharedQueue.steps s1 s2 -> SharedQueue.steps s2 s3 -> SharedQueue.steps s1 s3.
Proof.
  intros H12 H23. induction H23 as [s|s2 s3 s4 H23 IH Hstep]; [exact H12|].
  eapply SharedQueue.steps_step; [apply IH, H12 | exact Hstep].
Qed.

Lemma steps_one_producer (items : list A) :
  forall before after q got,
    SharedQueue.steps
      (SharedQueue.mkSys (before ++ items :: after) q got)
      (SharedQueue.mkSys (before ++ [] :: after) (q ++ items) got).
Proof.
  induction items as [|item rest IH]; intros before after q got.
  - rewrite app_nil_r. apply SharedQueue.steps_refl.
  - eapply steps_trans.
    + eapply SharedQueue.steps_step; [apply SharedQueue.steps_refl|].
      apply SharedQueue.step_push.
    + specialize (IH before after (SharedQueue.push item q) got).
      unfold SharedQueue.push in IH. rewrite <- app_assoc in IH. exact IH.
Qed.

Lemma steps_all_producers (threads : list (list A)) :
  forall finished q got,
    SharedQueue.steps
      (SharedQueue.mkSys (finished ++ threads) q got)
      (SharedQueue.mkSys (finished ++ map (fun _ => []) threads)
                         (q ++ concat threads) got).
Proof.
  induction threads as [|items rest IH]; intros finished q got.
  - cbn. rewrite !app_nil_r. apply SharedQueue.steps_refl.
  - eapply steps_trans; [apply steps_one_producer|].
    specialize (IH (finished ++ [[]]) (q ++ items) got).
    rewrite <- !app_assoc in IH. exact IH.
Qed.

Lemma afterAllPushes_reached (threads : list (list A)) :
  SharedQueue.steps (SharedQueue.start threads) (SharedQueue.afterAllPushes threads) /\
  SharedQueue.pushesDone (SharedQueue.afterAllPushes threads).
Proof.
  split.
  - exact (steps_all_producers threads [] [] []).
  - unfold SharedQueue.pushesDone, SharedQueue.afterAllPushes. cbn.
    apply Forall_map, Forall_forall. reflexivity.
Qed.

End QueueProducers.

(** C8.  Let [N] producers push [M] items each, in any interleaving, the
    consumer polling in between or not.  Once all pushes have completed,
    polling until the queue is empty gives, with what was polled before,
    [N * M] items: the pushed items, each exactly once.  The pushes can
    always complete. *)
Theorem concurrent_pushes_delivered_once {A : Type} (N M : nat)
    (threads : list (list A)) :
  length threads = N ->
  Forall (fun items => length items = M) threads ->
  (forall s fuel,
     SharedQueue.steps (SharedQueue.start threads) s ->
     SharedQueue.pushesDone s ->
     length (SharedQueue.contents s) <= fuel ->
     length (SharedQueue.consumed s ++
             fst (SharedQueue.popAll fuel (SharedQueue.contents s))) = N * M /\
     Permutation (SharedQueue.consumed s ++
                  fst (SharedQueue.popAll fuel (SharedQueue.contents s)))
                 (concat threads) /\
     SharedQueue.tryPop (snd (SharedQueue.popAll fuel (SharedQueue.contents s))) =
       (None, [])) /\
  (exists s,
     SharedQueue.steps (SharedQueue.start threads) s /\ SharedQueue.pushesDone s).
Proof.
  intros HN HM. split.
  - intros s fuel Hrun Hdone Hfuel.
    rewrite popAll_enough by exact Hfuel. cbn [fst snd].
    pose proof (accounted_steps threads s Hrun) as Hacc.
    unfold accounted in Hacc.
    rewrite (concat_all_nil _ Hdone), app_nil_r in Hacc.
    repeat split.
    + rewrite (Permutation_length Hacc), (concat_length_uniform M threads HM), HN.
      reflexivity.
    + exact Hacc.
  - exists (SharedQueue.afterAllPushes threads). apply afterAllPushes_reached.
Qed.

Lemma sample_queue_steps :
  SharedQueue.steps (SharedQueue.start [[1; 2]; [10; 20]]) sampleQueueRun.
Proof.
  unfold SharedQueue.start, sampleQueueRun.
  eapply SharedQueue.steps_step; [|apply (SharedQueue.step_push [[]] 20 [] [] [10; 2] [1])].
  eapply SharedQueue.steps_step; [|apply (SharedQueue.step_push [] 2 [] [[20]] [10] [1])].
  eapply SharedQueue.steps_step; [|apply (SharedQueue.step_push [[2]] 10 [20] [] [] [1])].
  eapply SharedQueue.steps_step; [|apply (SharedQueue.step_poll [[2]; [10; 20]] [1] [])].
  eapply SharedQueue.steps_step; [|apply (SharedQueue.step_push [] 1 [2] [[10; 20]] [] [])].
  apply SharedQueue.steps_refl.
Qed.

Lemma sample_queue_uniform :
  Forall (fun items : list nat => length items = 2) [[1; 2]; [10; 20]].
Proof. repeat constructor. Qed.

Lemma sample_queue_done : SharedQueue.pushesDone sampleQueueRun.
Proof. repeat constructor. Qed.

Lemma concurrent_pushes_delivered_once_witness :
  length ([1] ++ fst (SharedQueue.popAll 3 [10; 2; 20])) = 2 * 2 /\
  Permutation ([1] ++ fst (SharedQueue.popAll 3 [10; 2; 20])) [1; 2; 10; 20] /\
  SharedQueue.tryPop (snd (SharedQueue.popAll 3 [10; 2; 20])) = (None, []).
Proof.
  exact (proj1 (concurrent_pushes_delivered_once 2 2 [[1; 2]; [10; 20]] eq_refl
                  sample_queue_uniform)
               sampleQueueRun 3 sample_queue_steps sample_queue_done (le_n 3)).
Defined.

(** * Further properties of the entry point *)

(** ** The secondary instance, whatever its collaborators throw *)

Section SecondaryFrame.

Context {Image : Type} (env : Env Image).

Lemma forwardOne_frame (file sel : string) (w : World) :
  exists sent errs,
    snd (forwardOne env file sel w) =
      mkWorld (cout w) (cerr w ++ errs) (ipcSent w ++ sent) (pool w) (calls w) /\
    length sent <= 1 /\ length errs <= 1 /\
    (fst (forwardOne env file sel w) = Returned tt -> 1 <= length sent + length errs) /\
    (forall e, fst (forwardOne env file sel w) = Threw e ->
               exn_runtime e = false /\ thrownByCollaborator env [file] e).
Proof.
  unfold forwardOne, tryCatchRuntime, bind, lift, send, writeCerr.
  destruct (absolutePath env file) as [p|e1] eqn:Hpath.
  - destruct (sendToPrimaryInstance env (ipcSent w) (p +++ ":" +++ sel))
      as [[]|e1] eqn:Hsend.
    + exists [p +++ ":" +++ sel], []. cbn. rewrite app_nil_r.
      split; [reflexivity|]. split; [lia|]. split; [lia|]. split; [intros _; cbn; lia | discriminate].
    + destruct (exn_runtime e1) eqn:Hrt.
      * exists [p +++ ":" +++ sel], [invalidFile file e1]. cbn.
        split; [reflexivity|]. split; [lia|]. split; [lia|]. split; [intros _; cbn; lia | discriminate].
      * exists [p +++ ":" +++ sel], []. cbn. rewrite app_nil_r.
        split; [reflexivity|]. split; [lia|]. split; [lia|].
        split; [discriminate|].
        intros e0 [= <-]. split; [exact Hrt|]. right. eauto.
  - destruct (exn_runtime e1) eqn:Hrt.
    + exists [], [invalidFile file e1]. cbn. rewrite app_nil_r.
      split; [reflexivity|]. split; [lia|]. split; [lia|]. split; [intros _; cbn; lia | discriminate].
    + exists [], []. cbn. rewrite !app_nil_r.
      split; [destruct w; reflexivity|]. split; [lia|]. split; [lia|].
      split; [discriminate|].
      intros e0 [= <-]. split; [exact Hrt|].
      left. exists file. split; [now left | exact Hpath].
Qed.

Lemma imagesSupplied_cons (token : string) (rest : list string) :
  imagesSupplied (token :: rest) =
  match asSelector token with
  | Some _ => imagesSupplied rest
  | None => token :: imagesSupplied rest
  end.
Proof.
  unfold imagesSupplied. cbn [filter]. unfold isSelector.
  destruct (asSelector token); reflexivity.
Qed.

Lemma thrownByCollaborator_incl (files files' : list string) (e : Exn) :
  incl files files' -> thrownByCollaborator env files e -> thrownByCollaborator env files' e.
Proof.
  intros Hincl [[file [Hin Hthrow]]|Hsend]; [left | right; exact Hsend].
  exists file. split; [apply Hincl, Hin | exact Hthrow].
Qed.

Lemma forwardLoop_frame (tokens : list string) :
  forall cs w,
  exists sent errs,
    snd (forwardLoop env tokens cs w) =
      mkWorld (cout w) (cerr w ++ errs) (ipcSent w ++ sent) (pool w) (calls w) /\
    length sent <= length (imagesSupplied tokens) /\
    length errs <= length (imagesSupplied tokens) /\
    (fst (forwardLoop env tokens cs w) = Returned tt ->
     length (imagesSupplied tokens) <= length sent + length errs) /\
    (forall e, fst (forwardLoop env tokens cs w) = Threw e ->
               exn_runtime e = false /\ thrownByCollaborator env tokens e).
Proof.
  induction tokens as [|token rest IH]; intros cs w.
  - exists [], []. cbn. rewrite !app_nil_r.
    split; [destruct w; reflexivity|]. split; [lia|]. split; [lia|]. split; [intros _; lia | discriminate].
  - cbn [forwardLoop]. rewrite imagesSupplied_cons.
    destruct (asSelector token) as [sel|].
    + destruct (IH sel w) as (sent & errs & Hw & Hsent & Herrs & Hret & Hthrow).
      exists sent, errs.
      split; [exact Hw|]. split; [exact Hsent|]. split; [exact Herrs|].
      split; [exact Hret|].
      intros e0 He. destruct (Hthrow e0 He) as [Hrt Hby]. split; [exact Hrt|].
      eapply thrownByCollaborator_incl; [|exact Hby]. apply incl_tl, incl_refl.
    + destruct (forwardOne_frame token cs w)
        as (sent1 & errs1 & Hw1 & Hsent1 & Herrs1 & Hret1 & Hthrow1).
      unfold bind.
      destruct (forwardOne env token cs w) as [[[]|e1] w1]; cbn [fst snd] in *.
      * destruct (IH cs w1) as (sent & errs & Hw & Hsent & Herrs & Hret & Hthrow).
        exists (sent1 ++ sent), (errs1 ++ errs).
        rewrite Hw. subst w1. cbn. rewrite !app_assoc, !length_app. cbn [length].
        split; [reflexivity|]. split; [lia|]. split; [lia|]. split.
        -- intros H. specialize (Hret H). specialize (Hret1 eq_refl). lia.
        -- intros e0 He. destruct (Hthrow e0 He) as [Hrt Hby]. split; [exact Hrt|].
           eapply thrownByCollaborator_incl; [|exact Hby]. apply incl_tl, incl_refl.
      * exists sent1, errs1. cbn [length].
        split; [exact Hw1|]. split; [lia|]. split; [lia|].
        split; [discriminate|].
        intros e0 He. destruct (Hthrow1 e0 He) as [Hrt Hby]. split; [exact Hrt|].
        eapply thrownByCollaborator_incl; [|exact Hby].
        intros x [<-|[]]. now left.
Qed.

End SecondaryFrame.

Section SecondaryRuns.

Context {Image : Type} (env : Env Image).

Lemma main_secondary (argv : list string) (a : Args) (w : World) :
  ParseCLI env argv = Parsed a ->
  isPrimaryInstance env = false ->
  exists sent errs,
    snd (main env argv w) =
      mkWorld (cout w) (cerr w ++ errs) (ipcSent w ++ sent) (pool w) (calls w) /\
    length sent <= length (imagesSupplied (imageFiles a)) /\
    length errs <= length (imagesSupplied (imageFiles a)) /\
    ((fst (main env argv w) = Exit 0 /\
      length (imagesSupplied (imageFiles a)) <= length sent + length errs) \/
     (exists e, fst (main env argv w) = Terminate e /\
                exn_runtime e = false /\
                thrownByCollaborator env (imageFiles a) e)).
Proof.
  intros Hparse Hrole.
  destruct (forwardLoop_frame env (imageFiles a) "" w)
    as (sent & errs & Hw & Hsent & Herrs & Hret & Hthrow).
  exists sent, errs.
  unfold main, mainFunc. rewrite Hparse, Hrole. cbn [negb]. unfold bind, ret.
  destruct (forwardLoop env (imageFiles a) "" w) as [[[]|e] w1]; cbn [fst snd] in *.
  - split; [exact Hw|]. split; [exact Hsent|]. split; [exact Herrs|].
    left. split; [reflexivity | apply Hret; reflexivity].
  - destruct (Hthrow e eq_refl) as [Hrt Hby]. rewrite Hrt. cbn [fst snd].
    split; [exact Hw|]. split; [exact Hsent|]. split; [exact Herrs|].
    right. exists e. repeat split; assumption.
Qed.

Lemma forwardLoop_all_forwarded (tokens : list string) :
  (forall file, In file (imagesSupplied tokens) ->
                exists p, absolutePath env file = Returned p) ->
  (forall sent msg, sendToPrimaryInstance env sent msg = Returned tt) ->
  forall cs w,
  exists sent,
    forwardLoop env tokens cs w =
      (Returned tt,
       mkWorld (cout w) (cerr w) (ipcSent w ++ sent) (pool w) (calls w)) /\
    length sent = length (imagesSupplied tokens).
Proof.
  intros Hpath Hsend. induction tokens as [|token rest IH]; intros cs w.
  - exists []. cbn. rewrite app_nil_r. split; [destruct w|]; reflexivity.
  - cbn [forwardLoop]. rewrite imagesSupplied_cons in *.
    destruct (asSelector token) as [sel|].
    + apply IH, Hpath.
    + destruct (Hpath token (or_introl eq_refl)) as [p Hp].
      unfold bind at 1. unfold forwardOne, tryCatchRuntime, bind, lift, send.
      rewrite Hp, Hsend.
      destruct (IH (fun file Hin => Hpath file (or_intror Hin)) cs
                   (mkWorld (cout w) (cerr w) (ipcSent w ++ [p +++ ":" +++ cs])
                            (pool w) (calls w)))
        as (sent & Hrun & Hlen).
      exists ((p +++ ":" +++ cs) :: sent). rewrite Hrun. cbn.
      rewrite <- app_assoc. split; [reflexivity | now rewrite Hlen].
Qed.

Lemma forwardLoop_unreachable (tokens : list string) :
  (forall file e, absolutePath env file = Threw e -> exn_runtime e = true) ->
  (forall sent msg, exists e,
      sendToPrimaryInstance env sent msg = Threw e /\ exn_runtime e = true) ->
  forall cs w,
  exists sent errs,
    forwardLoop env tokens cs w =
      (Returned tt,
       mkWorld (cout w) (cerr w ++ errs) (ipcSent w ++ sent) (pool w) (calls w)) /\
    length errs = length (imagesSupplied tokens).
Proof.
  intros Hpath Hsend. induction tokens as [|token rest IH]; intros cs w.
  - exists [], []. cbn. rewrite !app_nil_r. split; [destruct w|]; reflexivity.
  - cbn [forwardLoop]. rewrite imagesSupplied_cons.
    destruct (asSelector token) as [sel|]; [apply IH|].
    unfold bind at 1. unfold forwardOne, tryCatchRuntime, bind, lift, send, writeCerr.
    destruct (absolutePath env token) as [p|e] eqn:Hp.
    + destruct (Hsend (ipcSent w) (p +++ ":" +++ cs)) as (e & He & Hrt).
      rewrite He, Hrt.
      match goal with
      | |- context [forwardLoop env rest cs ?w1] =>
          destruct (IH cs w1) as (sent & errs & Hrun & Hlen); rewrite Hrun
      end.
      exists ((p +++ ":" +++ cs) :: sent), (invalidFile token e :: errs). cbn.
      rewrite <- !app_assoc. split; [reflexivity | now rewrite Hlen].
    + rewrite (Hpath token e Hp).
      match goal with
      | |- context [forwardLoop env rest cs ?w1] =>
          destruct (IH cs w1) as (sent & errs & Hrun & Hlen); rewrite Hrun
      end.
      exists sent, (invalidFile token e :: errs). cbn.
      rewrite <- !app_assoc. split; [reflexivity | now rewrite Hlen].
Qed.

End SecondaryRuns.

(** X1.  A secondary instance opens no window, submits no load task and
    writes nothing to the standard output, whatever its collaborators do. *)
Theorem secondary_opens_no_window {Image : Type} (env : Env Image)
    (argv : list string) (a : Args) (w : World) :
  ParseCLI env argv = Parsed a ->
  isPrimaryInstance env = false ->
  cout (snd (main env argv w)) = cout w /\
  pool (snd (main env argv w)) = pool w /\
  calls (snd (main env argv w)) = calls w.
Proof.
  intros Hparse Hrole.
  destruct (main_secondary env argv a w Hparse Hrole) as (sent & errs & Hw & _).
  rewrite Hw. repeat split.
Qed.

Lemma secondary_opens_no_window_witness :
  cout (snd (main (sampleEnv false false true) ["tev"; "a.exr"; ":R"; ""]
                  (mkWorld ["earlier"] [] [] [mkLoadTask "x" ""] [DrawAll]))) = ["earlier"] /\
  pool (snd (main (sampleEnv false false true) ["tev"; "a.exr"; ":R"; ""]
                  (mkWorld ["earlier"] [] [] [mkLoadTask "x" ""] [DrawAll])))
    = [mkLoadTask "x" ""] /\
  calls (snd (main (sampleEnv false false true) ["tev"; "a.exr"; ":R"; ""]
                   (mkWorld ["earlier"] [] [] [mkLoadTask "x" ""] [DrawAll]))) = [DrawAll].
Proof.
  exact (secondary_opens_no_window (sampleEnv false false true)
           ["tev"; "a.exr"; ":R"; ""]
           (mkArgs None None None None None None ["a.exr"; ":R"; ""])
           (mkWorld ["earlier"] [] [] [mkLoadTask "x" ""] [DrawAll])
           eq_refl eq_refl).
Defined.

(** X2.  A secondary instance never exits with code 1.  It exits with
    code 0, or it is terminated by an exception that is not a
    [std::runtime_error] and that [absolutePath] (on one of the tokens) or
    [sendToPrimaryInstance] threw. *)
Theorem secondary_exit_or_foreign_exception {Image : Type} (env : Env Image)
    (argv : list string) (a : Args) (w : World) :
  ParseCLI env argv = Parsed a ->
  isPrimaryInstance env = false ->
  fst (main env argv w) = Exit 0 \/
  exists e,
    fst (main env argv w) = Terminate e /\
    exn_runtime e = false /\
    ((exists file, In file (imageFiles a) /\ absolutePath env file = Threw e) \/
     (exists sent msg, sendToPrimaryInstance env sent msg = Threw e)).
Proof.
  intros Hparse Hrole.
  destruct (main_secondary env argv a w Hparse Hrole)
    as (sent & errs & _ & _ & _ & [[Hexit _]|(e & Hterm & Hrt & Hby)]).
  - left. exact Hexit.
  - right. exists e. repeat split; assumption.
Qed.

Lemma secondary_exit_or_foreign_exception_witness :
  fst (main outOfMemoryEnv ["tev"; "a.exr"; "huge.exr"; "b.exr"] emptyWorld) = Exit 0 \/
  exists e,
    fst (main outOfMemoryEnv ["tev"; "a.exr"; "huge.exr"; "b.exr"] emptyWorld)
      = Terminate e /\
    exn_runtime e = false /\
    ((exists file, In file ["a.exr"; "huge.exr"; "b.exr"] /\
                   absolutePath outOfMemoryEnv file = Threw e) \/
     (exists sent msg, sendToPrimaryInstance outOfMemoryEnv sent msg = Threw e)).
Proof.
  exact (secondary_exit_or_foreign_exception outOfMemoryEnv
           ["tev"; "a.exr"; "huge.exr"; "b.exr"]
           (mkArgs None None None None None None ["a.exr"; "huge.exr"; "b.exr"])
           emptyWorld eq_refl eq_refl).
Defined.




(** X4.  When every path can be made absolute and the transport takes
    every message, a secondary instance reports nothing, hands over
    exactly one payload for each file token and exits with code 0. *)
Theorem secondary_all_forwarded {Image : Type} (env : Env Image)
    (argv : list string) (a : Args) (w : World) :
  ParseCLI env argv = Parsed a ->
  isPrimaryInstance env = false ->
  (forall file, In file (imagesSupplied (imageFiles a)) ->
                exists p, absolutePath env file = Returned p) ->
  (forall sent msg, sendToPrimaryInstance env sent msg = Returned tt) ->
  exists sent,
    main env argv w =
      (Exit 0, mkWorld (cout w) (cerr w) (ipcSent w ++ sent) (pool w) (calls w)) /\
    length sent = length (imagesSupplied (imageFiles a)).
Proof.
  intros Hparse Hrole Hpath Hsend.
  destruct (forwardLoop_all_forwarded env (imageFiles a) Hpath Hsend "" w)
    as (sent & Hrun & Hlen).
  exists sent. split; [|exact Hlen].
  unfold main, mainFunc. rewrite Hparse, Hrole. cbn [negb]. unfold bind.
  rewrite Hrun. reflexivity.
Qed.

Lemma sample_paths_resolve :
  forall file, In file (imagesSupplied ["a.exr"; ":R"; "/b.exr"]) ->
               exists p, absolutePath (sampleEnv false true true) file = Returned p.
Proof.
  intros file [<-|[<-|[]]]; eexists; reflexivity.
Qed.

Lemma secondary_all_forwarded_witness :
  exists sent,
    main (sampleEnv false true true) ["tev"; "a.exr"; ":R"; "/b.exr"] emptyWorld =
      (Exit 0, mkWorld [] [] ([] ++ sent) [] []) /\
    length sent = 2.
Proof.
  exact (secondary_all_forwarded (sampleEnv false true true)
           ["tev"; "a.exr"; ":R"; "/b.exr"]
           (mkArgs None None None None None None ["a.exr"; ":R"; "/b.exr"])
           emptyWorld eq_refl eq_refl sample_paths_resolve (fun _ _ => eq_refl)).
Defined.

(** X5.  When the primary instance cannot be reached (every send throws
    a [std::runtime_error]) and path failures are [std::runtime_error]s
    too, a secondary instance writes exactly one report for each file
    token and still exits with code 0. *)
Theorem secondary_unreachable_primary {Image : Type} (env : Env Image)
    (argv : list string) (a : Args) (w : World) :
  ParseCLI env argv = Parsed a ->
  isPrimaryInstance env = false ->
  (forall file e, absolutePath env file = Threw e -> exn_runtime e = true) ->
  (forall sent msg, exists e,
      sendToPrimaryInstance env sent msg = Threw e /\ exn_runtime e = true) ->
  exists sent errs,
    main env argv w =
      (Exit 0,
       mkWorld (cout w) (cerr w ++ errs) (ipcSent w ++ sent) (pool w) (calls w)) /\
    length errs = length (imagesSupplied (imageFiles a)).
Proof.
  intros Hparse Hrole Hpath Hsend.
  destruct (forwardLoop_unreachable env (imageFiles a) Hpath Hsend "" w)
    as (sent & errs & Hrun & Hlen).
  exists sent, errs. split; [|exact Hlen].
  unfold main, mainFunc. rewrite Hparse, Hrole. cbn [negb]. unfold bind.
  rewrite Hrun. reflexivity.
Qed.

Lemma sample_unreachable :
  forall (sent : list string) (msg : string), exists e,
    sendToPrimaryInstance (sampleEnv false false true) sent msg = Threw e /\
    exn_runtime e = true.
Proof.
  intros sent msg. eexists. split; reflexivity.
Qed.

Lemma secondary_unreachable_primary_witness :
  exists sent errs,
    main (sampleEnv false false true) ["tev"; "/real.exr"; ""; "/missing.exr"] emptyWorld =
      (Exit 0, mkWorld [] ([] ++ errs) ([] ++ sent) [] []) /\
    length errs = 3.
Proof.
  exact (secondary_unreachable_primary (sampleEnv false false true)
           ["tev"; "/real.exr"; ""; "/missing.exr"]
           (mkArgs None None None None None None ["/real.exr"; ""; "/missing.exr"])
           emptyWorld eq_refl eq_refl
           (proj1 (sampleEnv_failsByRuntimeError false false true))
           sample_unreachable).
Defined.

(** ** The primary instance *)

Section PrimaryFrame.

Context {Image : Type} (env : Env Image).

Lemma callsOnly_ret {A : Type} (allowed : Call -> Prop) (a : A) :
  callsOnly allowed (ret a).
Proof.
  intros w. cbn. repeat split. exists []. split; [now rewrite app_nil_r | constructor].
Qed.

Lemma callsOnly_lift {A : Type} (allowed : Call -> Prop) (o : Outcome A) :
  callsOnly allowed (lift o).
Proof.
  intros w. cbn. repeat split. exists []. split; [now rewrite app_nil_r | constructor].
Qed.

Lemma callsOnly_call (allowed : Call -> Prop) (c : Call) :
  allowed c -> callsOnly allowed (call env c).
Proof.
  intros Hc w. unfold call. destruct (callFails env c); cbn; repeat split.
  - exists []. split; [now rewrite app_nil_r | constructor].
  - exists [c]. split; [reflexivity | now constructor].
Qed.

Lemma callsOnly_bind {A B : Type} (allowed : Call -> Prop) (m : M A) (k : A -> M B) :
  callsOnly allowed m -> (forall a, callsOnly allowed (k a)) ->
  callsOnly allowed (bind m k).
Proof.
  intros Hm Hk w. unfold bind.
  destruct (Hm w) as (H1 & H2 & H3 & H4 & added1 & H5 & H6).
  destruct (m w) as [[a|e] w1]; cbn [snd] in *.
  - destruct (Hk a w1) as (K1 & K2 & K3 & K4 & added2 & K5 & K6).
    rewrite K1, K2, K3, K4, K5, H1, H2, H3, H4, H5.
    repeat split. exists (added1 ++ added2).
    split; [now rewrite app_assoc | now apply Forall_app].
  - repeat split; try assumption. exists added1. now split.
Qed.

Lemma callsOnly_when (allowed : Call -> Prop) (flag : bool) (m : M unit) :
  callsOnly allowed m -> callsOnly allowed (when flag m).
Proof.
  intros Hm. destruct flag; [exact Hm | apply callsOnly_ret].
Qed.

Lemma callsOnly_whenSet {A : Type} (allowed : Call -> Prop) (flag : option A)
    (m : A -> M unit) :
  (forall v, callsOnly allowed (m v)) -> callsOnly allowed (whenSet flag m).
Proof.
  intros Hm. destruct flag; [apply Hm | apply callsOnly_ret].
Qed.

Lemma showViewer_callsOnly (a : Args) :
  callsOnly (fun _ => True) (showViewer env a).
Proof.
  unfold showViewer.
  repeat first
    [ apply callsOnly_bind; [|intros ?]
    | apply callsOnly_when
    | apply callsOnly_whenSet; intros ?
    | apply callsOnly_call; exact I
    | apply callsOnly_lift
    | apply callsOnly_ret ].
Qed.

Lemma mainFunc_primary (argv : list string) (a : Args) (w : World) :
  ParseCLI env argv = Parsed a ->
  isPrimaryInstance env = true ->
  mainFunc env argv w =
  showViewer env a
    (mkWorld (cout w ++ ["Loading window..." +++ endl]) (cerr w) (ipcSent w)
             (pool w ++ map taskOf (requests (imageFiles a))) (calls w)).
Proof.
  intros Hparse Hrole. unfold mainFunc. rewrite Hparse, Hrole. cbn [negb].
  unfold bind at 1. unfold writeCout at 1.
  unfold bind at 1. rewrite loadLoop_world, <- requests_requestsFrom. reflexivity.
Qed.

(** *** Running to the end *)

Lemma bind_Returned {A B : Type} (m : M A) (k : A -> M B) (w w' : World) (b : B) :
  bind m k w = (Returned b, w') ->
  exists a w1, m w = (Returned a, w1) /\ k a w1 = (Returned b, w').
Proof.
  unfold bind. destruct (m w) as [[a|e] w1]; [eauto | discriminate].
Qed.

Lemma call_Returned (c : Call) (w w' : World) (u : unit) :
  call env c w = (Returned u, w') ->
  w' = mkWorld (cout w) (cerr w) (ipcSent w) (pool w) (calls w ++ [c]).
Proof.
  unfold call. destruct (callFails env c); [discriminate|]. now intros [= <-].
Qed.

Lemma when_call_Returned (flag : bool) (c : Call) (w w' : World) (u : unit) :
  when flag (call env c) w = (Returned u, w') ->
  w' = mkWorld (cout w) (cerr w) (ipcSent w) (pool w)
               (calls w ++ if flag then [c] else []).
Proof.
  destruct flag; cbn.
  - apply call_Returned.
  - intros [= <-]. rewrite app_nil_r. now destruct w.
Qed.

Lemma whenSet_call_Returned {A : Type} (flag : option A) (c : A -> Call)
    (w w' : World) (u : unit) :
  whenSet flag (fun v => call env (c v)) w = (Returned u, w') ->
  w' = mkWorld (cout w) (cerr w) (ipcSent w) (pool w) (calls w ++ flagCall flag c).
Proof.
  destruct flag; cbn.
  - apply call_Returned.
  - intros [= <-]. rewrite app_nil_r. now destruct w.
Qed.

Lemma whenSet_convert_Returned {A : Type} (flag : option string)
    (convert : string -> Outcome A) (c : A -> Call) (w w' : World) (u : unit) :
  whenSet flag (fun s => (x <- lift (convert s) ;; call env (c x))) w = (Returned u, w') ->
  w' = mkWorld (cout w) (cerr w) (ipcSent w) (pool w)
               (calls w ++ match flag with
                           | Some s => match convert s with
                                       | Returned x => [c x]
                                       | Threw _ => []
                                       end
                           | None => []
                           end).
Proof.
  destruct flag as [s|]; cbn.
  - unfold bind, lift. destruct (convert s) as [x|e]; [apply call_Returned | discriminate].
  - intros [= <-]. rewrite app_nil_r. now destruct w.
Qed.

Lemma showViewer_Returned (a : Args) (w w' : World) (n : Z) :
  showViewer env a w = (Returned n, w') ->
  n = 0%Z /\
  w' = mkWorld (cout w) (cerr w) (ipcSent w) (pool w) (calls w ++ viewerCalls env a).
Proof.
  unfold showViewer. destruct w as [co ce ip po ca]. intros H.
  repeat match goal with
         | H : bind _ _ _ = (Returned _, _) |- _ =>
             let u := fresh "u" in
             let w1 := fresh "w" in
             let H1 := fresh "H" in
             apply bind_Returned in H as (u & w1 & H1 & H);
             first [ apply call_Returned in H1
                   | apply when_call_Returned in H1
                   | apply whenSet_call_Returned in H1
                   | apply whenSet_convert_Returned in H1 ];
             cbn [cout cerr ipcSent pool calls] in H1; subst w1
         end.
  injection H as <- <-. split; [reflexivity|].
  cbn [cout cerr ipcSent pool calls]. unfold viewerCalls.
  repeat rewrite <- app_assoc. reflexivity.
Qed.

(** *** Stopping early *)



End PrimaryFrame.

(** ** Channel selectors, token by token *)




Lemma main_world {Image : Type} (env : Env Image) (argv : list string) (w : World) :
  cout (snd (main env argv w)) = cout (snd (mainFunc env argv w)) /\
  ipcSent (snd (main env argv w)) = ipcSent (snd (mainFunc env argv w)) /\
  pool (snd (main env argv w)) = pool (snd (mainFunc env argv w)) /\
  calls (snd (main env argv w)) = calls (snd (mainFunc env argv w)).
Proof.
  unfold main. destruct (mainFunc env argv w) as [[n|e] w1]; cbn; [tauto|].
  destruct (exn_runtime e); cbn; tauto.
Qed.

(** X6.  A primary instance submits the load tasks of the whole command
    line before it touches the window system: they are in the pool, in
    command-line order, however the run ends afterwards.  It announces
    "Loading window..." once and sends nothing to another instance. *)
Theorem primary_submits_loads_first {Image : Type} (env : Env Image)
    (argv : list string) (a : Args) (w : World) :
  ParseCLI env argv = Parsed a ->
  isPrimaryInstance env = true ->
  pool (snd (main env argv w)) = pool w ++ map taskOf (requests (imageFiles a)) /\
  cout (snd (main env argv w)) = cout w ++ ["Loading window..." +++ endl] /\
  ipcSent (snd (main env argv w)) = ipcSent w /\
  cerr (snd (mainFunc env argv w)) = cerr w.
Proof.
  intros Hparse Hrole.
  destruct (main_world env argv w) as (Hcout & Hsent & Hpool & _).
  rewrite Hcout, Hsent, Hpool, (mainFunc_primary env argv a w Hparse Hrole).
  match goal with
  | |- context [showViewer env a ?w0] =>
      destruct (showViewer_callsOnly env a w0) as (H1 & H2 & H3 & H4 & _)
  end.
  rewrite H1, H2, H3, H4. repeat split.
Qed.

Lemma primary_submits_loads_first_witness :
  pool (snd (main (sampleEnv true true false) ["tev"; "a.exr"; ":R"; "b.exr"] emptyWorld))
    = [] ++ [mkLoadTask "a.exr" ""; mkLoadTask "b.exr" "R"] /\
  cout (snd (main (sampleEnv true true false) ["tev"; "a.exr"; ":R"; "b.exr"] emptyWorld))
    = [] ++ ["Loading window..." +++ endl] /\
  ipcSent (snd (main (sampleEnv true true false) ["tev"; "a.exr"; ":R"; "b.exr"] emptyWorld))
    = [] /\
  cerr (snd (mainFunc (sampleEnv true true false) ["tev"; "a.exr"; ":R"; "b.exr"] emptyWorld))
    = [].
Proof.
  exact (primary_submits_loads_first (sampleEnv true true false)
           ["tev"; "a.exr"; ":R"; "b.exr"]
           (mkArgs None None None None None None ["a.exr"; ":R"; "b.exr"])
           emptyWorld eq_refl eq_refl).
Defined.

(** X7.  When [mainFunc] returns on a primary instance, it returns 0 and
    has made these calls in this order: nanogui is started, the viewer is
    made, drawn and shown, maximized if so decided, the flags that were
    given are applied as exposure, filter, metric, offset, tonemap, the
    main loop runs with a refresh of 250, and the pool is shut down. *)
Theorem primary_run_to_end {Image : Type} (env : Env Image)
    (argv : list string) (a : Args) (w w' : World) (n : Z) :
  ParseCLI env argv = Parsed a ->
  isPrimaryInstance env = true ->
  mainFunc env argv w = (Returned n, w') ->
  n = 0%Z /\ calls w' = calls w ++ viewerCalls env a.
Proof.
  intros Hparse Hrole Hret.
  rewrite (mainFunc_primary env argv a w Hparse Hrole) in Hret.
  apply showViewer_Returned in Hret as [Hn Hw]. split; [exact Hn|].
  rewrite Hw. reflexivity.
Qed.

Lemma primary_run_to_end_witness :
  0%Z = 0%Z /\
  [NanoguiInit; NewImageViewer; DrawAll; SetVisible true;
   SetExposure 1%Z; SetFilter "img:layer"; SetMetric SquaredError; SetOffset 2%Z;
   SetTonemap FalseColor; Mainloop 250; ThreadPoolShutdown]
  = [] ++ viewerCalls allFlagsEnv
            (mkArgs (Some 1%Z) (Some "img:layer") (Some false) (Some "SE")
                    (Some 2%Z) (Some "FC") ["a.exr"; ":R"; "b.exr"]).
Proof.
  exact (primary_run_to_end allFlagsEnv ["tev"]
           (mkArgs (Some 1%Z) (Some "img:layer") (Some false) (Some "SE")
                   (Some 2%Z) (Some "FC") ["a.exr"; ":R"; "b.exr"])
           emptyWorld allFlagsFinal 0%Z eq_refl eq_refl eq_refl).
Defined.



Lemma viewerCalls_Maximize {Image : Type} (env : Env Image) (a : Args) :
  In Maximize (viewerCalls env a) <-> shouldMaximize a = true.
Proof.
  unfold viewerCalls, flagCall. rewrite !in_app_iff.
  destruct (shouldMaximize a), (exposureFlag a), (filterFlag a), (offsetFlag a);
    destruct (metricFlag a) as [sm|]; try destruct (toMetric env sm);
    destruct (tonemapFlag a) as [st|]; try destruct (toTonemap env st);
    cbn; split; intros H; try reflexivity; try discriminate;
    try (right; left; left; reflexivity);
    repeat match goal with
           | H : _ \/ _ |- _ => destruct H
           | H : False |- _ => destruct H
           end; discriminate.
Qed.

(** X9.  On a primary instance that runs to its end the window is
    maximized exactly when the maximize flag is given as true, or is not
    given while the positional list holds at least one token. *)
Theorem maximize_decision {Image : Type} (env : Env Image)
    (argv : list string) (a : Args) (w w' : World) (n : Z) :
  ParseCLI env argv = Parsed a ->
  isPrimaryInstance env = true ->
  mainFunc env argv w = (Returned n, w') ->
  ~ In Maximize (calls w) ->
  (In Maximize (calls w') <->
   maximizeFlag a = Some true \/ (maximizeFlag a = None /\ imageFiles a <> [])).
Proof.
  intros Hparse Hrole Hret Hfresh.
  rewrite (mainFunc_primary env argv a w Hparse Hrole) in Hret.
  apply showViewer_Returned in Hret as [_ Hw].
  rewrite Hw. cbn [calls]. rewrite in_app_iff, viewerCalls_Maximize, shouldMaximize_cases.
  tauto.
Qed.

Lemma maximize_decision_witness :
  In Maximize (calls allFlagsFinal) <->
  Some false = Some true \/ (Some false = None /\ ["a.exr"; ":R"; "b.exr"] <> []).
Proof.
  exact (maximize_decision allFlagsEnv ["tev"]
           (mkArgs (Some 1%Z) (Some "img:layer") (Some false) (Some "SE")
                   (Some 2%Z) (Some "FC") ["a.exr"; ":R"; "b.exr"])
           emptyWorld allFlagsFinal 0%Z eq_refl eq_refl eq_refl (fun H => H)).
Defined.

(** X10.  When [nanogui::init] throws a [std::runtime_error] the process
    exits with code 1 after "Uncaught exception: " and the message; no
    viewer call has been made, and the load tasks of the command line
    are in the pool all the same. *)
Theorem primary_window_failure {Image : Type} (env : Env Image)
    (argv : list string) (a : Args) (w : World) (e : Exn) :
  ParseCLI env argv = Parsed a ->
  isPrimaryInstance env = true ->
  callFails env NanoguiInit = Some e ->
  exn_runtime e = true ->
  main env argv w =
    (Exit 1,
     mkWorld (cout w ++ ["Loading window..." +++ endl])
             (cerr w ++ ["Uncaught exception: " +++ exn_what e +++ endl])
             (ipcSent w)
             (pool w ++ map taskOf (requests (imageFiles a)))
             (calls w)).
Proof.
  intros Hparse Hrole Hinit Hrt. unfold main.
  rewrite (mainFunc_primary env argv a w Hparse Hrole).
  unfold showViewer. unfold bind at 1. unfold call at 1. rewrite Hinit, Hrt.
  reflexivity.
Qed.

Lemma primary_window_failure_witness :
  main (sampleEnv true true false) ["tev"; "a.exr"; ":R"; "b.exr"] emptyWorld =
    (Exit 1,
     mkWorld ["Loading window..." +++ endl]
             ["Uncaught exception: Could not initialize GLFW!" +++ endl]
             []
             [mkLoadTask "a.exr" ""; mkLoadTask "b.exr" "R"]
             []).
Proof.
  exact (primary_window_failure (sampleEnv true true false)
           ["tev"; "a.exr"; ":R"; "b.exr"]
           (mkArgs None None None None None None ["a.exr"; ":R"; "b.exr"])
           emptyWorld (mkExn true "Could not initialize GLFW!")
           eq_refl eq_refl eq_refl eq_refl).
Defined.

(** ** The loops and the command line *)

Lemma selectorAfter_cons (cs token : string) (rest : list string) :
  selectorAfter cs (token :: rest) =
  selectorAfter (match asSelector token with Some sel => sel | None => cs end) rest.
Proof. reflexivity. Qed.

(** X11.  Both loops can be cut anywhere: going over [xs ++ ys] is going
    over [xs] and then over [ys], starting with the selector that [xs]
    left in force. *)
Theorem loops_compose {Image : Type} (env : Env Image)
    (xs ys : list string) (cs : string) (w : World) :
  forwardLoop env (xs ++ ys) cs w =
    (forwardLoop env xs cs ;; forwardLoop env ys (selectorAfter cs xs)) w /\
  loadLoop (xs ++ ys) cs w =
    (loadLoop xs cs ;; loadLoop ys (selectorAfter cs xs)) w.
Proof.
  revert cs w. induction xs as [|token rest IH]; intros cs w.
  - split; reflexivity.
  - cbn [app forwardLoop loadLoop]. rewrite selectorAfter_cons.
    destruct (asSelector token) as [sel|].
    + apply IH.
    + split.
      * unfold bind.
        destruct (forwardOne env token cs w) as [[[]|e] w1]; [|reflexivity].
        apply (proj1 (IH cs w1)).
      * unfold bind, enqueueTask. apply (proj2 (IH cs _)).
Qed.

Lemma selector_only_loops {Image : Type} (env : Env Image) (tokens : list string) :
  Forall (fun token => isSelector token = true) tokens ->
  forall cs w,
    forwardLoop env tokens cs w = (Returned tt, w) /\
    loadLoop tokens cs w = (Returned tt, w).
Proof.
  induction 1 as [|token rest Hsel _ IH]; intros cs w.
  - split; reflexivity.
  - cbn [forwardLoop loadLoop]. unfold isSelector in Hsel.
    destruct (asSelector token) as [sel|]; [apply IH | discriminate].
Qed.

(** X12.  A command line that holds only channel selectors (or nothing)
    makes neither loop do anything: a secondary instance exits with
    code 0 having sent and reported nothing, and a primary instance
    submits no load task. *)
Theorem selector_only_command_line {Image : Type} (env : Env Image)
    (argv : list string) (a : Args) (w : World) :
  ParseCLI env argv = Parsed a ->
  Forall (fun token => isSelector token = true) (imageFiles a) ->
  (isPrimaryInstance env = false -> main env argv w = (Exit 0, w)) /\
  (isPrimaryInstance env = true -> pool (snd (main env argv w)) = pool w).
Proof.
  intros Hparse Hsel. split; intros Hrole.
  - unfold main, mainFunc. rewrite Hparse, Hrole. cbn [negb]. unfold bind.
    rewrite (proj1 (selector_only_loops env (imageFiles a) Hsel "" w)). reflexivity.
  - destruct (main_world env argv w) as (_ & _ & Hpool & _). rewrite Hpool.
    unfold mainFunc. rewrite Hparse, Hrole. cbn [negb].
    unfold bind at 1. unfold writeCout at 1. unfold bind at 1.
    rewrite (proj2 (selector_only_loops env (imageFiles a) Hsel "" _)).
    match goal with
    | |- context [bind ?m ?k ?w0] =>
        change (bind m k) with (showViewer env a);
        destruct (showViewer_callsOnly env a w0) as (_ & _ & _ & H4 & _)
    end.
    rewrite H4. reflexivity.
Qed.

Lemma sample_selectors_only :
  Forall (fun token => isSelector token = true) [":R"; ":"; ":G,B"].
Proof. repeat constructor. Qed.

Lemma selector_only_command_line_witness :
  (isPrimaryInstance (sampleEnv false true true) = false ->
   main (sampleEnv false true true) ["tev"; ":R"; ":"; ":G,B"] emptyWorld
     = (Exit 0, emptyWorld)) /\
  (isPrimaryInstance (sampleEnv false true true) = true ->
   pool (snd (main (sampleEnv false true true) ["tev"; ":R"; ":"; ":G,B"] emptyWorld))
     = pool emptyWorld).
Proof.
  exact (selector_only_command_line (sampleEnv false true true)
           ["tev"; ":R"; ":"; ":G,B"]
           (mkArgs None None None None None None [":R"; ":"; ":G,B"])
           emptyWorld eq_refl sample_selectors_only).
Defined.

Lemma asSelector_Some (token sel : string) :
  asSelector token = Some sel <-> token = String ":"%char sel.
Proof.
  destruct token as [|c rest]; cbn.
  - split; discriminate.
  - destruct (Ascii.eqb_spec c ":"%char) as [->|Hne]; split.
    + now intros [= ->].
    + now intros [= ->].
    + discriminate.
    + intros [= Hc _]. contradiction.
Qed.

Lemma requestsFrom_provenance (tokens : list string) :
  forall cs,
    Forall (fun request =>
              In (fst request) tokens /\
              asSelector (fst request) = None /\
              (snd request = cs \/ In (String ":"%char (snd request)) tokens))
           (requestsFrom cs tokens).
Proof.
  induction tokens as [|token rest IH]; intros cs; [constructor|].
  cbn [requestsFrom]. destruct (asSelector token) as [sel|] eqn:Hsel.
  - apply asSelector_Some in Hsel. subst token.
    eapply Forall_impl; [|apply (IH sel)].
    intros [file s] (Hin & Hfile & Hs). cbn [fst snd] in *.
    split; [now right|]. split; [exact Hfile|].
    right. destruct Hs as [->|Hs]; [now left | now right].
  - constructor.
    + cbn [fst snd]. split; [now left|]. split; [exact Hsel | now left].
    + eapply Forall_impl; [|apply (IH cs)].
      intros [file s] (Hin & Hfile & Hs). cbn [fst snd] in *.
      split; [now right|]. split; [exact Hfile|].
      destruct Hs as [->|Hs]; [now left | right; now right].
Qed.

(** X13.  The load tasks a primary instance submits are made of the
    command line and of nothing else: the file of each is a token that
    does not start with ':', and its selector is empty or what follows
    the ':' of a token that does. *)
Theorem load_tasks_come_from_tokens {Image : Type} (env : Env Image)
    (argv : list string) (a : Args) (w : World) :
  ParseCLI env argv = Parsed a ->
  isPrimaryInstance env = true ->
  exists tasks,
    pool (snd (main env argv w)) = pool w ++ tasks /\
    length tasks = length (imagesSupplied (imageFiles a)) /\
    Forall (fun task =>
              In (task_imageFile task) (imageFiles a) /\
              asSelector (task_imageFile task) = None /\
              (task_channelSelector task = "" \/
               In (":" +++ task_channelSelector task) (imageFiles a)))
           tasks.
Proof.
  intros Hparse Hrole.
  exists (map taskOf (requests (imageFiles a))).
  destruct (main_world env argv w) as (_ & _ & Hpool & _).
  rewrite Hpool, (mainFunc_primary env argv a w Hparse Hrole).
  match goal with
  | |- context [showViewer env a ?w0] =>
      destruct (showViewer_callsOnly env a w0) as (_ & _ & _ & H4 & _)
  end.
  rewrite H4. split; [reflexivity|].
  rewrite length_map, requests_requestsFrom, requestsFrom_length.
  split; [reflexivity|].
  apply Forall_map.
  exact (requestsFrom_provenance (imageFiles a) "").
Qed.

Lemma load_tasks_come_from_tokens_witness :
  exists tasks,
    pool (snd (main (sampleEnv true true true) ["tev"; "a.exr"; ":R"; "b.exr"] emptyWorld))
      = [] ++ tasks /\
    length tasks = 2 /\
    Forall (fun task =>
              In (task_imageFile task) ["a.exr"; ":R"; "b.exr"] /\
              asSelector (task_imageFile task) = None /\
              (task_channelSelector task = "" \/
               In (":" +++ task_channelSelector task) ["a.exr"; ":R"; "b.exr"]))
           tasks.
Proof.
  exact (load_tasks_come_from_tokens (sampleEnv true true true)
           ["tev"; "a.exr"; ":R"; "b.exr"]
           (mkArgs None None None None None None ["a.exr"; ":R"; "b.exr"])
           emptyWorld eq_refl eq_refl).
Defined.

(** ** What the payload tells the primary instance *)

Lemma noColon_after_colon (p s : string) : noColon (p +++ ":" +++ s) = false.
Proof.
  induction p as [|c p IH]; cbn; [reflexivity|].
  fold (p +++ ":" +++ s). rewrite IH. apply andb_false_r.
Qed.

Lemma payload_injective (p1 : string) :
  forall p2 s1 s2,
    noColon s1 = true -> noColon s2 = true ->
    p1 +++ ":" +++ s1 = p2 +++ ":" +++ s2 ->
    p1 = p2 /\ s1 = s2.
Proof.
  induction p1 as [|c1 p1 IH]; intros [|c2 p2] s1 s2 H1 H2; cbn; intros Heq.
  - injection Heq as ->. split; reflexivity.
  - injection Heq as _ Heq. fold (p2 +++ ":" +++ s2) in Heq.
    rewrite Heq, noColon_after_colon in H1. discriminate.
  - injection Heq as _ Heq. fold (p1 +++ ":" +++ s1) in Heq.
    rewrite <- Heq, noColon_after_colon in H2. discriminate.
  - injection Heq as -> Heq. fold (p1 +++ ":" +++ s1) (p2 +++ ":" +++ s2) in Heq.
    destruct (IH p2 s1 s2 H1 H2 Heq) as [-> ->]. split; reflexivity.
Qed.

Lemma payload_regroup (p s1 s2 : string) :
  p +++ ":" +++ (s1 +++ ":" +++ s2) = (p +++ ":" +++ s1) +++ ":" +++ s2.
Proof.
  induction p as [|c p IH]; cbn.
  - reflexivity.
  - fold (p +++ ":" +++ (s1 +++ ":" +++ s2)) (p +++ ":" +++ s1).
    fold ((p +++ ":" +++ s1) +++ ":" +++ s2). now rewrite IH.
Qed.

(** X14.  As long as channel selectors hold no ':', the payload of a
    forward tells path and selector apart: two forwards that hand the
    same payload to the transport have the same absolute path and the
    same selector. *)
Theorem payload_determines_request {Image : Type} (env : Env Image)
    (file1 sel1 file2 sel2 p1 p2 : string) (w : World) :
  absolutePath env file1 = Returned p1 ->
  absolutePath env file2 = Returned p2 ->
  noColon sel1 = true ->
  noColon sel2 = true ->
  ipcSent (snd (forwardOne env file1 sel1 w)) =
  ipcSent (snd (forwardOne env file2 sel2 w)) ->
  p1 = p2 /\ sel1 = sel2.
Proof.
  intros Hp1 Hp2 H1 H2. rewrite !forwardOne_sent, Hp1, Hp2.
  intros Heq. apply app_inv_head in Heq. injection Heq as Heq.
  exact (payload_injective p1 p2 sel1 sel2 H1 H2 Heq).
Qed.

Lemma payload_determines_request_witness :
  "/home/user/a.exr" = "/home/user/a.exr" /\ "R,G" = "R,G".
Proof.
  exact (payload_determines_request (sampleEnv false true true)
           "a.exr" "R,G" "/home/user/a.exr" "R,G"
           "/home/user/a.exr" "/home/user/a.exr" emptyWorld
           eq_refl eq_refl eq_refl eq_refl eq_refl).
Defined.

(** X15.  A selector with a ':' in it makes the payload ambiguous: the
    file with absolute path [p] under the selector [s1:s2] and a file
    with absolute path [p:s1] under the selector [s2] hand the same
    payload to the transport. *)
Theorem payload_ambiguous_with_colon {Image : Type} (env : Env Image)
    (file1 file2 p s1 s2 : string) (w : World) :
  absolutePath env file1 = Returned p ->
  absolutePath env file2 = Returned (p +++ ":" +++ s1) ->
  ipcSent (snd (forwardOne env file1 (s1 +++ ":" +++ s2) w)) =
  ipcSent (snd (forwardOne env file2 s2 w)).
Proof.
  intros Hp1 Hp2. rewrite !forwardOne_sent, Hp1, Hp2.
  now rewrite payload_regroup.
Qed.

Lemma payload_ambiguous_with_colon_witness :
  ipcSent (snd (forwardOne (sampleEnv false true true) "/a" "b:c" emptyWorld)) =
  ipcSent (snd (forwardOne (sampleEnv false true true) "/a:b" "c" emptyWorld)).
Proof.
  exact (payload_ambiguous_with_colon (sampleEnv false true true)
           "/a" "/a:b" "/a" "b" "c" emptyWorld eq_refl eq_refl).
Defined.

(** ** The Windows entry point *)

(** X16.  [reconnectIo] asks for the parent's console first.  It returns
    true exactly when that failed, a new console was asked for and
    [AllocConsole] succeeded; it calls [AllocConsole] exactly when the
    attach failed and a new console was asked for; and it reopens the
    standard streams exactly when it ends up with a console.  [WinMain]
    asks for no new console, so it never calls [AllocConsole], and it
    ends as [main] does. *)
Theorem reconnectIo_result {Image : Type} (os : Console) (openNewConsole : bool)
    (env : Env Image) (argv : list string) (w : World) :
  hd_error (snd (reconnectIo os openNewConsole)) = Some AttachConsole /\
  (fst (reconnectIo os openNewConsole) = true <->
   attachSucceeds os = false /\ openNewConsole = true /\ allocSucceeds os = true) /\
  (In AllocConsole (snd (reconnectIo os openNewConsole)) <->
   attachSucceeds os = false /\ openNewConsole = true) /\
  (incl reopenStreams (snd (reconnectIo os openNewConsole)) <->
   attachSucceeds os = true \/ (openNewConsole = true /\ allocSucceeds os = true)) /\
  fst (WinMain os env argv w) = main env argv w /\
  ~ In AllocConsole (snd (WinMain os env argv w)) /\
  (In SyncWithStdio (snd (WinMain os env argv w)) <-> attachSucceeds os = true).
Proof.
  unfold WinMain, reconnectIo, reopenStreams.
  destruct os as [[|] [|]], openNewConsole; cbn;
    repeat match goal with
           | |- _ /\ _ => split
           | |- _ <-> _ => split
           | |- ~ _ => intros ?
           | |- _ -> _ => intros ?
           end;
    try reflexivity; try discriminate; try tauto;
    repeat match goal with
           | H : _ /\ _ |- _ => destruct H
           | H : _ \/ _ |- _ => destruct H
           | H : False |- _ => destruct H
           | H : incl _ _ |- _ => specialize (H SyncWithStdio)
           | H : In SyncWithStdio _ -> _ |- _ =>
               specialize (H (or_intror (or_intror (or_intror (or_introl eq_refl)))));
               cbn in H
           end;
    try discriminate; try tauto;
    try (intros x Hx; cbn in *; tauto).
Qed.

(** ** The order in which images reach the viewer *)

Lemma drainPool_additions {Image : Type} (env : Env Image)
    (reqs : list (string * string)) :
  forall q, drainPool env (map taskOf reqs) q = q ++ additionsOf env reqs.
Proof.
  induction reqs as [|request rest IH]; intros q.
  - cbn. now rewrite app_nil_r.
  - cbn [map drainPool fold_left additionsOf flat_map].
    fold (drainPool env (map taskOf rest) (runTask env (taskOf request) q)).
    fold (additionsOf env rest).
    rewrite IH, runTask_cases, <- app_assoc. reflexivity.
Qed.

(** X17.  With the single-worker pool and the queue both first in, first
    out, the images reach the viewer in the order of the command line:
    at every moment of the startup loads the additions polled or waiting
    are those of the first file tokens that load, in order, and once the
    loop is through and the pool is empty they are those of all of them. *)
Theorem images_arrive_in_command_line_order {Image : Type} (env : Env Image)
    (tokens : list string) (s : Startup Image) :
  startupRun env (startupInit tokens) s ->
  polled s ++ imagesToAdd s =
    additionsOf env (firstn (length (executed s)) (requests tokens)) /\
  (startupDone s -> polled s ++ imagesToAdd s = additionsOf env (requests tokens)).
Proof.
  intros Hrun. destruct (startupInv_run env tokens s Hrun) as [Horder Hqueue].
  assert (Hprefix : executed s =
                    map taskOf (firstn (length (executed s)) (requests tokens))).
  { rewrite <- firstn_map, Horder, firstn_app, Nat.sub_diag, firstn_all. cbn.
    now rewrite app_nil_r. }
  split.
  - rewrite Hqueue. rewrite Hprefix at 1. exact (drainPool_additions env _ []).
  - intros [Htodo Hsub]. rewrite Hqueue.
    rewrite Htodo, Hsub in Horder. cbn in Horder. rewrite app_nil_r in Horder.
    rewrite <- Horder. exact (drainPool_additions env _ []).
Qed.

Lemma images_arrive_in_command_line_order_witness :
  polled sampleFinal ++ imagesToAdd sampleFinal =
    additionsOf (sampleEnv true true true)
      (firstn 2 (requests ["a.exr"; ":R"; "/missing.exr"])) /\
  (startupDone sampleFinal ->
   polled sampleFinal ++ imagesToAdd sampleFinal =
     additionsOf (sampleEnv true true true) (requests ["a.exr"; ":R"; "/missing.exr"])).
Proof.
  exact (images_arrive_in_command_line_order (sampleEnv true true true)
           ["a.exr"; ":R"; "/missing.exr"] sampleFinal sample_startupRun).
Defined.

(** ** A metric or tonemap that cannot be converted *)

Section BadFlag.

Context {Image : Type} (env : Env Image).

Lemma stopsEarly_bind_l {A B : Type} (m : M A) (k : A -> M B) :
  stopsEarly m -> stopsEarly (bind m k).
Proof.
  intros Hm w. destruct (Hm w) as (e & added & Hthrow & Hcalls & Hquiet).
  exists e, added. unfold bind.
  destruct (m w) as [[a|e1] w1]; cbn [fst snd] in *; [discriminate|].
  injection Hthrow as ->. split; [reflexivity|]. split; assumption.
Qed.

Lemma stopsEarly_bind_r {A B : Type} (m : M A) (k : A -> M B) :
  callsOnly (fun c => c <> Mainloop 250 /\ c <> ThreadPoolShutdown) m ->
  (forall a, stopsEarly (k a)) ->
  stopsEarly (bind m k).
Proof.
  intros Hm Hk w. unfold bind.
  destruct (Hm w) as (_ & _ & _ & _ & added1 & H5 & H6).
  destruct (m w) as [[a|e1] w1]; cbn [fst snd] in *.
  - destruct (Hk a w1) as (e & added2 & Hthrow & Hcalls & Hquiet).
    exists e, (added1 ++ added2). rewrite Hcalls, H5, app_assoc.
    split; [exact Hthrow|]. split; [reflexivity | now apply Forall_app].
  - exists e1, added1. split; [reflexivity|]. split; assumption.
Qed.

Lemma stopsEarly_convert {A : Type} (s : string) (convert : string -> Outcome A)
    (c : A -> Call) (e : Exn) :
  convert s = Threw e ->
  stopsEarly (whenSet (Some s) (fun s => (x <- lift (convert s) ;; call env (c x)))).
Proof.
  intros Hconv w. exists e, []. cbn. unfold bind, lift. rewrite Hconv. cbn.
  rewrite app_nil_r. split; [reflexivity|]. split; [reflexivity | constructor].
Qed.

Ltac quiet_calls :=
  repeat first
    [ apply callsOnly_when
    | apply callsOnly_whenSet; intros ?
    | apply callsOnly_bind; [|intros ?]
    | apply callsOnly_call; split; discriminate
    | apply callsOnly_lift ].

Lemma showViewer_bad_metric (a : Args) (s : string) (e : Exn) :
  metricFlag a = Some s -> toMetric env s = Threw e -> stopsEarly (showViewer env a).
Proof.
  intros Hflag Hconv. unfold showViewer. rewrite Hflag.
  do 7 (apply stopsEarly_bind_r; [quiet_calls | intros _]).
  apply stopsEarly_bind_l. now apply stopsEarly_convert with (e := e).
Qed.

Lemma showViewer_bad_tonemap (a : Args) (s : string) (e : Exn) :
  tonemapFlag a = Some s -> toTonemap env s = Threw e -> stopsEarly (showViewer env a).
Proof.
  intros Hflag Hconv. unfold showViewer. rewrite Hflag.
  do 9 (apply stopsEarly_bind_r; [quiet_calls | intros _]).
  apply stopsEarly_bind_l. now apply stopsEarly_convert with (e := e).
Qed.

End BadFlag.

(** X18.  When the metric or the tonemap given on the command line
    cannot be converted ([toMetric] or [toTonemap] throws), a primary
    instance never enters the main loop and never shuts the pool down:
    [mainFunc] throws, and the process does not exit with code 0. *)
Theorem bad_metric_or_tonemap_stops_startup {Image : Type} (env : Env Image)
    (argv : list string) (a : Args) (w : World) (s : string) (e : Exn) :
  ParseCLI env argv = Parsed a ->
  isPrimaryInstance env = true ->
  (metricFlag a = Some s /\ toMetric env s = Threw e) \/
  (tonemapFlag a = Some s /\ toTonemap env s = Threw e) ->
  exists e' added,
    fst (mainFunc env argv w) = Threw e' /\
    calls (snd (mainFunc env argv w)) = calls w ++ added /\
    ~ In (Mainloop 250) added /\
    ~ In ThreadPoolShutdown added /\
    fst (main env argv w) <> Exit 0.
Proof.
  intros Hparse Hrole Hbad.
  assert (Hstop : stopsEarly (showViewer env a)).
  { destruct Hbad as [[Hflag Hconv]|[Hflag Hconv]].
    - exact (showViewer_bad_metric env a s e Hflag Hconv).
    - exact (showViewer_bad_tonemap env a s e Hflag Hconv). }
  unfold main. rewrite (mainFunc_primary env argv a w Hparse Hrole).
  match goal with
  | |- context [showViewer env a ?w0] =>
      destruct (Hstop w0) as (e' & added & Hthrow & Hcalls & Hquiet);
      destruct (showViewer env a w0) as [[n|e1] w1]
  end; cbn [fst snd] in *; [discriminate|].
  injection Hthrow as ->. exists e', added.
  rewrite Forall_forall in Hquiet.
  split; [reflexivity|]. split; [exact Hcalls|].
  split; [intros Hin; now apply (proj1 (Hquiet _ Hin))|].
  split; [intros Hin; now apply (proj2 (Hquiet _ Hin))|].
  destruct (exn_runtime e'); cbn; discriminate.
Qed.

Lemma bad_metric_or_tonemap_stops_startup_witness :
  exists e' added,
    fst (mainFunc badMetricEnv ["tev"] emptyWorld) = Threw e' /\
    calls (snd (mainFunc badMetricEnv ["tev"] emptyWorld)) = [] ++ added /\
    ~ In (Mainloop 250) added /\
    ~ In ThreadPoolShutdown added /\
    fst (main badMetricEnv ["tev"] emptyWorld) <> Exit 0.
Proof.
  exact (bad_metric_or_tonemap_stops_startup badMetricEnv ["tev"]
           (mkArgs None None (Some false) (Some "XYZ") None None ["a.exr"])
           emptyWorld "XYZ" (mkExn false "Invalid metric: XYZ")
           eq_refl eq_refl (or_introl (conj eq_refl eq_refl))).
Defined.
